(** * terminal-runner: the narrative engine of [main.py]

    A shallow embedding of the text adventure in [src/main.py].  Every
    Python function is a Rocq function of the same name in a small monad [M]
    that threads the interpreter's world: the heap of [GameState] objects,
    the lines still waiting on standard input, the random source and the
    trace of what the program has done so far.

    Non-termination ([while True], the scenes calling each other without
    ever unwinding) is handled with a fuel argument that decreases at every
    call of a scene function; a run that is out of fuel stopped in the
    middle of the Python run, and more fuel continues it
    ([run_more_fuel]).

    Standard input is a finite list of lines of ASCII text, standard output
    a list of completed lines and prompts; [time.sleep] and the pacing of
    [type_text] leave no mark in the model, and the interpreter's limit on
    the depth of recursion is not modelled. *)

From Stdlib Require Import ZArith NArith Ascii String List Lia.
From stdpp Require Import base list strings.

Local Open Scope string_scope.
Local Open Scope list_scope.
Local Open Scope stdpp_scope.
Local Open Scope Z_scope.

(** ** Strings: the fragment of [str] the program uses *)

(** [c.lower()] and [c.upper()] on one character of ASCII text. *)
Definition lower_ascii (c : ascii) : ascii :=
  let n := nat_of_ascii c in
  if ((65 <=? n) && (n <=? 90))%nat then ascii_of_nat (n + 32) else c.

Definition upper_ascii (c : ascii) : ascii :=
  let n := nat_of_ascii c in
  if ((97 <=? n) && (n <=? 122))%nat then ascii_of_nat (n - 32) else c.

Fixpoint lower (s : string) : string :=
  match s with
  | EmptyString => EmptyString
  | String c s' => String (lower_ascii c) (lower s')
  end.

Fixpoint upper (s : string) : string :=
  match s with
  | EmptyString => EmptyString
  | String c s' => String (upper_ascii c) (upper s')
  end.

(** [sep.join(parts)] *)
Definition join (sep : string) (parts : list string) : string :=
  String.concat sep parts.

(** The double quote character, for the one message that contains it. *)
Definition dquote : string := String "034"%char EmptyString.

(** ** Data model *)

(** [class GameState]: the two attributes set by [__init__]. *)
Record GameState := mkGameState {
  score : Z;
  has_fire_armor : bool
}.

(** [GameState.__init__] *)
Definition GameState_init : GameState :=
  {| score := 10; has_fire_armor := false |}.

(** A Python variable holding a [GameState] holds a reference to it. *)
Definition ref := nat.
Bind Scope nat_scope with ref.

(** An attribute assignment on a [GameState] object. *)
Inductive attr_write :=
  | WScore (value : Z)
  | WArmor (value : bool).

(** What the program does that can be observed, in order. *)
Inductive event :=
  | EClear                                   (* os.system("cls||clear") *)
  | EPrint (line : string)                   (* print(line), type_text(line) *)
  | EPrompt (prompt : string)                (* input(prompt) shows its prompt *)
  | EStore (obj : ref) (w : attr_write).     (* obj.attr = value *)

Record World := mkWorld {
  heap : list GameState;       (* the GameState objects created so far *)
  stdin : list string;         (* the lines not yet read *)
  rng : nat → N;               (* the random source: its n-th draw *)
  draws : nat;                 (* how many draws were taken *)
  trace : list event           (* what happened so far, oldest first *)
}.

Definition set_heap (h : list GameState) (w : World) : World :=
  mkWorld h (stdin w) (rng w) (draws w) (trace w).
Definition set_stdin (l : list string) (w : World) : World :=
  mkWorld (heap w) l (rng w) (draws w) (trace w).
Definition set_draws (n : nat) (w : World) : World :=
  mkWorld (heap w) (stdin w) (rng w) n (trace w).
Definition add_event (e : event) (w : World) : World :=
  mkWorld (heap w) (stdin w) (rng w) (draws w) (trace w ++ [e]).
Definition add_events (t : list event) (w : World) : World :=
  mkWorld (heap w) (stdin w) (rng w) (draws w) (trace w ++ t).

(** ** The monad of the interpreter *)

Inductive exn :=
  | SystemExit (code : Z)      (* sys.exit() *)
  | EOFError                   (* input() at the end of standard input *)
  | IndexError.                (* random.choice on an empty sequence *)

Inductive outcome (A : Type) :=
  | Val (a : A)                (* the call returned [a] *)
  | Raise (e : exn)            (* the call raised; nothing catches it *)
  | OutOfFuel                  (* the model stopped here, the program did not *)
  | Dangling.                  (* a reference to no object: not a Python state *)
Arguments Val {A} a.
Arguments Raise {A} e.
Arguments OutOfFuel {A}.
Arguments Dangling {A}.

Definition M (A : Type) : Type := World → outcome A * World.

Definition ret {A} (a : A) : M A := λ w, (Val a, w).

Definition bind {A B} (m : M A) (k : A → M B) : M B := λ w,
  match m w with
  | (Val a, w') => k a w'
  | (Raise e, w') => (Raise e, w')
  | (OutOfFuel, w') => (OutOfFuel, w')
  | (Dangling, w') => (Dangling, w')
  end.

Declare Scope M_scope.
Delimit Scope M_scope with M.
Notation "x ← y ; z" := (bind y (λ x, z))
  (at level 20, y at level 100, z at level 200, only parsing) : M_scope.
Notation "x ;; z" := (bind x (λ _, z))
  (at level 100, z at level 200, only parsing, right associativity) : M_scope.
Local Open Scope M_scope.

Definition raise {A} (e : exn) : M A := λ w, (Raise e, w).
Definition out_of_fuel {A} : M A := λ w, (OutOfFuel, w).

(** [if c: body] with no [else]. *)
Definition when (c : bool) (body : M unit) : M unit :=
  if c then body else ret tt.

(** ** Primitives: console, clock, random source, process *)

Definition emit (e : event) : M unit := λ w, (Val tt, add_event e w).

Definition print (line : string) : M unit := emit (EPrint line).

(** [time.sleep]: the argument is in milliseconds; sleeping changes nothing
    the model records. *)
Definition time_sleep (ms : nat) : M unit := ret tt.

Definition os_system_clear : M unit := emit EClear.

(** [sys.exit()]: raises [SystemExit] with no argument, exit status 0. *)
Definition sys_exit {A} : M A := raise (SystemExit 0).

(** [input(prompt)]: writes the prompt, then reads one line without its
    newline; at the end of input it raises [EOFError]. *)
Definition input (prompt : string) : M string := λ w,
  let w' := add_event (EPrompt prompt) w in
  match stdin w with
  | [] => (Raise EOFError, w')
  | line :: rest => (Val line, set_stdin rest w')
  end.

Definition random_draw : M N := λ w,
  (Val (rng w (draws w)), set_draws (S (draws w)) w).

(** [random.random()]: a float k / 2^53 with 0 <= k < 2^53, given by [k]. *)
Definition random_random : M N :=
  k ← random_draw; ret (k mod 2 ^ 53)%N.

(** [x < 0.5] for [x = random.random()]. *)
Definition lt_half (k : N) : bool := (k <? 2 ^ 52)%N.

(** [random.choice(seq)]: an element at a random index below [len(seq)]. *)
Definition random_choice {A} (seq : list A) : M A :=
  k ← random_draw;
  match seq !! (N.to_nat k mod length seq)%nat with
  | Some x => ret x
  | None => raise IndexError
  end.

(** ** The heap of GameState objects *)

(** [GameState()] *)
Definition GameState_new : M ref := λ w,
  (Val (length (heap w)), set_heap (heap w ++ [GameState_init]) w).

Definition load (self : ref) : M GameState := λ w,
  match heap w !! self with
  | Some gs => (Val gs, w)
  | None => (Dangling, w)
  end.

Definition store (self : ref) (wr : attr_write) : M unit := λ w,
  match heap w !! self with
  | Some gs =>
      let gs' := match wr with
                 | WScore v => mkGameState v (has_fire_armor gs)
                 | WArmor b => mkGameState (score gs) b
                 end in
      (Val tt, add_event (EStore self wr) (set_heap (<[self := gs']> (heap w)) w))
  | None => (Dangling, w)
  end.

(** [GameState.modify_score] *)
Definition modify_score (self : ref) (amount : Z) : M Z :=
  gs ← load self;
  store self (WScore (score gs + amount));;
  gs' ← load self;
  ret (score gs').

(** [GameState.is_game_over] *)
Definition is_game_over (self : ref) : M bool :=
  gs ← load self;
  ret (score gs <=? 0).

(** [game_state.has_fire_armor] read and written *)
Definition get_has_fire_armor (self : ref) : M bool :=
  gs ← load self;
  ret (has_fire_armor gs).

Definition set_has_fire_armor (self : ref) (value : bool) : M unit :=
  store self (WArmor value).

(** ** Presentation layer *)

(** [type_text]: the characters written one by one and the closing newline
    make up one line of output. *)
Definition type_text (text : string) : M unit := print text.

Definition print_pause (text : string) : M unit :=
  type_text text;;
  time_sleep 1500.

(** Every caller leaves [pause_time] at its default of 1.5 seconds. *)
Fixpoint print_lines_with_pause (lines : list string) : M unit :=
  match lines with
  | [] => ret tt
  | line :: rest =>
      type_text line;;
      time_sleep 1500;;
      print_lines_with_pause rest
  end.

(** ** Input layer *)

(** [error_msg or default]: [None] and the empty string are both falsy. *)
Definition error_text (error_msg : option string) (valid_options : list string)
  : string :=
  match error_msg with
  | Some (String c s) => String c s
  | _ => "Invalid choice. Choose: " +:+ join ", " valid_options
  end.

(** The [while True] of [get_valid_input]; every turn reads one line. *)
Fixpoint get_valid_input_loop (turns : nat) (prompt : string)
    (valid_options : list string) (error_msg : option string) : M string :=
  match turns with
  | O => out_of_fuel
  | S turns =>
      line ← input prompt;
      let user_input := lower line in
      if bool_decide (user_input ∈ valid_options) then ret user_input
      else
        print (error_text error_msg valid_options);;
        get_valid_input_loop turns prompt valid_options error_msg
  end.

(** [get_valid_input]: one turn more than there are lines always reaches
    either a valid line or the end of input. *)
Definition get_valid_input (prompt : string) (valid_options : list string)
    (error_msg : option string) : M string := λ w,
  get_valid_input_loop (S (length (stdin w))) prompt valid_options error_msg w.

(** ** Narrative engine *)

(** [intro]: the opening narrative; [game_state] is not used. *)
Definition intro (game_state : ref) : M unit :=
  time_sleep 1000;;
  print_lines_with_pause [
    "You wake up in a strange, dark place with tangled wires.";
    "As you wander a bit, you begin to realize you're inside a...";
    "Computer system."
  ].

Definition path_lines : list string := [
  "Ahead of you, there are two paths:";
  "1. A corridor with a red light labeled 'Firewall.'";
  "2. A pitch black tunnel labeled 'Core Access.'"
].

(** [show_path_choices] *)
Definition show_path_choices : M unit :=
  print_lines_with_pause path_lines.

(** One entry of the [questions] list of [start_trivia_game]. *)
Record Question := mkQuestion {
  question : string;
  options : string;
  answer : string
}.

Definition questions : list Question := [
  {| question := "What does CPU stand for?";
     options := "A) Central Processing Unit  B) Computer Personal Unit  "
                +:+ "C) Central Peripheral Unit";
     answer := "a" |};
  {| question := "Which of these is an OS?";
     options := "A) Python  B) Linux  C) HTML";
     answer := "b" |};
  {| question := "What does RAM stand for?";
     options := "A) Random Access Memory  B) Readily Available Memory  "
                +:+ "C) Rapid Action Module";
     answer := "a" |}
].

Definition play_again_prompt (is_ending : bool) : string :=
  if is_ending then "Would you like to play again? (Y/N): "
  else "You lost, play again? (Y/N): ".

Definition farewell : string := "Thanks for playing!".

Definition where_prompt : string :=
  "Where do you go from here? The choice is yours: ".

(** The scene functions call each other in a cycle, so they are defined
    together; each call hands the callee the fuel that is left. *)
Fixpoint main_game_loop (fuel : nat) (game_state : ref) {struct fuel} : M unit :=
  match fuel with
  | O => out_of_fuel
  | S fuel =>
      (* one turn of [while True] *)
      show_path_choices;;
      over ← is_game_over game_state;
      when over (handle_play_again fuel game_state false);;
      choice ← get_valid_input where_prompt ["1"; "2"] None;
      (if (choice =? "1")%string then enter_firewall_path fuel game_state
       else if (choice =? "2")%string then enter_core_access fuel game_state
       else ret tt);;
      main_game_loop fuel game_state
  end

with handle_play_again (fuel : nat) (game_state : ref) (is_ending : bool)
    {struct fuel} : M unit :=
  match fuel with
  | O => out_of_fuel
  | S fuel =>
      let prompt := play_again_prompt is_ending in
      choice ← get_valid_input prompt ["y"; "n"; EmptyString] None;
      if bool_decide (choice ∈ ["y"; EmptyString]) then
        time_sleep 500;;
        reset_game fuel game_state
      else
        type_text farewell;;
        sys_exit
  end

with reset_game (fuel : nat) (game_state : ref) {struct fuel} : M unit :=
  match fuel with
  | O => out_of_fuel
  | S fuel =>
      game_state ← GameState_new;       (* the local name is rebound *)
      os_system_clear;;
      intro game_state;;
      main_game_loop fuel game_state
  end

with handle_jump_sequence (fuel : nat) (success_callback : ref → M unit)
    (game_state : ref) {struct fuel} : M unit :=
  match fuel with
  | O => out_of_fuel
  | S fuel =>
      type_text ("Type " +:+ dquote +:+ "JUMP" +:+ dquote
                 +:+ " to jump to the opposite side");;
      line ← input "> ";
      let user_input := upper line in
      if (user_input =? "JUMP")%string then
        print "Phew, that was really close!";;
        time_sleep 500;;
        success_callback game_state
      else
        print "Looks like you made a typo.";;
        handle_play_again fuel game_state false
  end

with enter_firewall_path (fuel : nat) (game_state : ref) {struct fuel} : M unit :=
  match fuel with
  | O => out_of_fuel
  | S fuel =>
      armor ← get_has_fire_armor game_state;
      if armor then
        print_lines_with_pause [
          "You walk back into the corridor.";
          "You need to jump high this time; the bridge is broken."
        ];;
        handle_jump_sequence fuel (handle_firewall_obstacle fuel) game_state
      else
        print_lines_with_pause [
          "You walk into the long, creepy corridor...";
          "You must cross a bridge with lava underneath."
        ];;
        let prompt := "It sounds risky. Will you do it? (Y/N): " in
        choice ← get_valid_input prompt ["y"; "n"] None;
        if (choice =? "y")%string then handle_bridge_crossing fuel game_state
        else print_pause "You decided not to risk it and go back."
  end

with handle_bridge_crossing (fuel : nat) (game_state : ref) {struct fuel}
    : M unit :=
  match fuel with
  | O => out_of_fuel
  | S fuel =>
      print_lines_with_pause [
        "You're halfway across the bridge, but something feels off...";
        "..";
        "..."
      ];;
      handle_jump_sequence fuel (handle_firewall_obstacle fuel) game_state
  end

with handle_firewall_obstacle (fuel : nat) (game_state : ref) {struct fuel}
    : M unit :=
  match fuel with
  | O => out_of_fuel
  | S fuel =>
      print_pause "You make it across the bridge.";;
      armor ← get_has_fire_armor game_state;
      if armor then
        print_lines_with_pause [
          "The huge wall of fire blocks your path again, but you're ready.";
          "You step forward into the fire..";
          "It was hot, but you survived!";
          "You've unlocked the 'Wall Of Fire' ending!"
        ];;
        type_text farewell;;
        handle_play_again fuel game_state true
      else
        print_lines_with_pause [
          "A huge wall of fire is blocking your path.";
          "The heat is overwhelming—you can't pass through.";
          "There has to be a way through, right?"
        ];;
        firewall_choice_loop fuel game_state
  end

(** The [while True] of [handle_firewall_obstacle]. *)
with firewall_choice_loop (fuel : nat) (game_state : ref) {struct fuel}
    : M unit :=
  match fuel with
  | O => out_of_fuel
  | S fuel =>
      print "Do you want to:";;
      print "1. Risk walking through the fire";;
      print "2. Go back";;
      choice ← get_valid_input "> " ["1"; "2"] None;
      if (choice =? "1")%string then
        print_lines_with_pause [
          "You step into the fire..";
          "The heat is unbearable."
        ];;
        x ← random_random;
        (if lt_half x then
           print_lines_with_pause [
             "Lucky day! You emerge on the other side,";
             "smoking but alive!";
             "You've unlocked the 'Wall Of Fire' ending!"
           ];;
           type_text farewell;;
           handle_play_again fuel game_state true
         else
           print_pause "Within seconds, your body gives in.";;
           handle_play_again fuel game_state false)
        (* break *)
      else if (choice =? "2")%string then
        print_pause "You decided to go back."
        (* break *)
      else firewall_choice_loop fuel game_state
  end

with handle_fan_obstacle (fuel : nat) (game_state : ref) {struct fuel}
    : M unit :=
  match fuel with
  | O => out_of_fuel
  | S fuel =>
      print_lines_with_pause [
        "The temperature rises the further you walk...";
        "A large fan blocks your path!";
        "Its blades spin dangerously fast."
      ];;
      fan_choice_loop fuel game_state
  end

(** The [while True] of [handle_fan_obstacle]. *)
with fan_choice_loop (fuel : nat) (game_state : ref) {struct fuel} : M unit :=
  match fuel with
  | O => out_of_fuel
  | S fuel =>
      print "Do you want to:";;
      print "1. Try to jump through the fan";;
      print "2. Go back";;
      choice ← get_valid_input "> " ["1"; "2"] None;
      if (choice =? "1")%string then
        print_lines_with_pause [
          "You take a deep breath and prepare to jump...";
          "This is going to be risky!"
        ];;
        x ← random_random;
        (if lt_half x then
           print_lines_with_pause [
             "Perfect timing! You pass through safely!";
             "You've unlocked the 'Spinning Blades' ending!"
           ];;
           type_text farewell;;
           handle_play_again fuel game_state true
         else
           print_pause "The fan's blades were too fast...";;
           handle_play_again fuel game_state false)
        (* break *)
      else if (choice =? "2")%string then
        print_pause "You decide to go back to the main area.";;
        main_game_loop fuel game_state
        (* break *)
      else fan_choice_loop fuel game_state
  end

with enter_core_access (fuel : nat) (game_state : ref) {struct fuel} : M unit :=
  match fuel with
  | O => out_of_fuel
  | S fuel =>
      print_pause "You enter the Core Access tunnel.";;
      armor ← get_has_fire_armor game_state;
      if armor then
        print_pause "You continue on your way.";;
        handle_fan_obstacle fuel game_state
      else
        print_pause "It's dark and quiet, but you spot a button...";;
        let prompt := "Do you press the button? (Y/N): " in
        choice ← get_valid_input prompt ["y"; "n"] None;
        if (choice =? "y")%string then handle_random_event fuel game_state
        else
          print_pause "You don't press the button and continue.";;
          handle_fan_obstacle fuel game_state
  end

with handle_random_event (fuel : nat) (game_state : ref) {struct fuel}
    : M unit :=
  match fuel with
  | O => out_of_fuel
  | S fuel =>
      what ← random_choice ["explosion"; "door_open"];
      if (what =? "explosion")%string then
        print_lines_with_pause [
          "You feel the ground shaking heavily...";
          "What's that sound?";
          "..";
          "IT'S AN EXPLOSIO- 💥"
        ];;
        handle_play_again fuel game_state false
      else
        print_lines_with_pause [
          "The button opens a hidden door in the wall...";
          "You step through and find a shining fire protection armor!"
        ];;
        start_trivia_game fuel game_state
  end

with return_to_core_access (fuel : nat) (game_state : ref) {struct fuel}
    : M unit :=
  match fuel with
  | O => out_of_fuel
  | S fuel =>
      let prompt := "Go to the firewall corridor? (Y/N): " in
      choice ← get_valid_input prompt ["y"; "n"] None;
      if (choice =? "y")%string then enter_firewall_path fuel game_state
      else
        print_lines_with_pause [
          "You're back in the Core Access tunnel.";
          "You try to locate the button again...";
          "But it's vanished. You continue on."
        ];;
        handle_fan_obstacle fuel game_state
  end

with start_trivia_game (fuel : nat) (game_state : ref) {struct fuel} : M unit :=
  match fuel with
  | O => out_of_fuel
  | S fuel =>
      print_pause "To claim it, pass a fun trivia question.";;
      q ← random_choice questions;
      print_pause (question q);;
      print (options q);;
      user_input ← get_valid_input "> " ["a"; "b"; "c"] None;
      (if (user_input =? answer q)%string then
         print_lines_with_pause [
           "Correct! You've earned the fire protection armor.";
           "Now revisit the firewall..."
         ];;
         modify_score game_state 5;;
         set_has_fire_armor game_state true
       else
         print_lines_with_pause [
           "Incorrect! The armor stays locked.";
           "The floor splits open!"
         ];;
         modify_score game_state (-5);;
         ret tt);;
      return_to_core_access fuel game_state
  end.

(** The module as run by [python main.py]: the statement at line 7, then
    the [__main__] block. *)
Definition program (fuel : nat) : M unit :=
  os_system_clear;;
  game_state ← GameState_new;
  os_system_clear;;
  intro game_state;;
  main_game_loop fuel game_state.

Definition initial_world (lines : list string) (oracle : nat → N) : World :=
  {| heap := []; stdin := lines; rng := oracle; draws := O; trace := [] |}.

Definition run (fuel : nat) (lines : list string) (oracle : nat → N)
  : outcome unit * World :=
  program fuel (initial_world lines oracle).


(** * Basic facts about the monad and the input layer *)

Lemma bind_val {A B} (m : M A) (k : A → M B) w a w' :
  m w = (Val a, w') → bind m k w = k a w'.
Proof. unfold bind. intros ->. reflexivity. Qed.

(** The events of one rejected line: the prompt, then the error message. *)
Definition retry (prompt msg : string) : list event :=
  [EPrompt prompt; EPrint msg].

Definition retries (prompt msg : string) (bads : list string) : list event :=
  concat (map (λ _, retry prompt msg) bads).

Definition invalid (valid_options : list string) (line : string) : Prop :=
  lower line ∉ valid_options.

Lemma get_valid_input_loop_accepts turns prompt valid err bads good rest w :
  (length bads <= turns)%nat →
  Forall (invalid valid) bads →
  lower good ∈ valid →
  stdin w = bads ++ good :: rest →
  get_valid_input_loop (S turns) prompt valid err w =
    (Val (lower good),
     mkWorld (heap w) rest (rng w) (draws w)
       (trace w ++ retries prompt (error_text err valid) bads
                ++ [EPrompt prompt])).
Proof.
  revert turns w. induction bads as [|bad bads IH]; intros turns w Hlen Hbad Hgood Hin.
  - simpl in Hin. cbn -[error_text]. unfold bind, input. rewrite Hin.
    rewrite bool_decide_true by done. reflexivity.
  - destruct turns as [|turns]; [simpl in Hlen; lia|].
    apply Forall_cons in Hbad as [Hb Hbads].
    change (get_valid_input_loop (S (S turns)) prompt valid err w)
      with (bind (input prompt) (λ line,
              let user_input := lower line in
              if bool_decide (user_input ∈ valid) then ret user_input
              else bind (print (error_text err valid))
                     (λ _, get_valid_input_loop (S turns) prompt valid err)) w).
    unfold bind at 1, input. rewrite Hin. cbn -[error_text get_valid_input_loop].
    rewrite bool_decide_false by done.
    unfold bind, print, emit.
    rewrite (IH turns _) ; [| simpl in Hlen; lia | done | done | reflexivity].
    cbn -[error_text]. unfold retries. cbn -[error_text].
    rewrite <- !app_assoc. reflexivity.
Qed.

Lemma get_valid_input_accepts prompt valid err bads good rest w :
  Forall (invalid valid) bads →
  lower good ∈ valid →
  stdin w = bads ++ good :: rest →
  get_valid_input prompt valid err w =
    (Val (lower good),
     mkWorld (heap w) rest (rng w) (draws w)
       (trace w ++ retries prompt (error_text err valid) bads
                ++ [EPrompt prompt])).
Proof.
  intros Hbad Hgood Hin. unfold get_valid_input.
  apply get_valid_input_loop_accepts; try done.
  rewrite Hin, length_app. lia.
Qed.

Lemma get_valid_input_loop_eof turns prompt valid err w :
  (length (stdin w) <= turns)%nat →
  Forall (invalid valid) (stdin w) →
  get_valid_input_loop (S turns) prompt valid err w =
    (Raise EOFError,
     mkWorld (heap w) [] (rng w) (draws w)
       (trace w ++ retries prompt (error_text err valid) (stdin w)
                ++ [EPrompt prompt])).
Proof.
  remember (stdin w) as lines eqn:Hin. revert turns w Hin.
  induction lines as [|bad bads IH]; intros turns w Hin Hlen Hbad.
  - cbn -[error_text]. unfold bind, input, add_event. rewrite <- Hin. reflexivity.
  - destruct turns as [|turns]; [simpl in Hlen; lia|].
    apply Forall_cons in Hbad as [Hb Hbads].
    change (get_valid_input_loop (S (S turns)) prompt valid err w)
      with (bind (input prompt) (λ line,
              let user_input := lower line in
              if bool_decide (user_input ∈ valid) then ret user_input
              else bind (print (error_text err valid))
                     (λ _, get_valid_input_loop (S turns) prompt valid err)) w).
    unfold bind at 1, input. rewrite <- Hin. cbn -[error_text get_valid_input_loop].
    rewrite bool_decide_false by done.
    unfold bind, print, emit.
    rewrite (IH turns _) ; [| reflexivity | simpl in Hlen; cbn; lia | done ].
    cbn -[error_text]. unfold retries. cbn -[error_text].
    rewrite <- !app_assoc. reflexivity.
Qed.

(** Every list of lines either has a first valid line or has none. *)
Lemma first_valid_line valid (lines : list string) :
  (∃ bads good rest, lines = bads ++ good :: rest
     ∧ Forall (invalid valid) bads ∧ lower good ∈ valid)
  ∨ Forall (invalid valid) lines.
Proof.
  induction lines as [|l lines IH]; [right; constructor|].
  destruct (decide (lower l ∈ valid)) as [Hl|Hl].
  - left. exists [], l, lines. repeat split; [constructor | done].
  - destruct IH as [(bads & good & rest & -> & Hb & Hg)|Hall].
    + left. exists (l :: bads), good, rest. repeat split; [|done].
      constructor; done.
    + right. constructor; done.
Qed.

Lemma get_valid_input_first prompt valid err line rest w :
  lower line ∈ valid →
  stdin w = line :: rest →
  get_valid_input prompt valid err w =
    (Val (lower line),
     mkWorld (heap w) rest (rng w) (draws w) (trace w ++ [EPrompt prompt])).
Proof.
  intros Hv Hin.
  apply (get_valid_input_accepts prompt valid err []); [constructor | done..].
Qed.

Lemma random_choice_eval {A} (seq : list A) x w :
  seq !! (N.to_nat (rng w (draws w)) mod length seq)%nat = Some x →
  random_choice seq w = (Val x, set_draws (S (draws w)) w).
Proof.
  intros H. unfold random_choice, bind, random_draw. cbn. rewrite H.
  reflexivity.
Qed.

Lemma modify_score_eval self amount gs w :
  heap w !! self = Some gs →
  modify_score self amount w =
    (Val (score gs + amount),
     mkWorld (<[self := mkGameState (score gs + amount) (has_fire_armor gs)]>
                (heap w))
       (stdin w) (rng w) (draws w)
       (trace w ++ [EStore self (WScore (score gs + amount))])).
Proof.
  intros H. unfold modify_score, bind, load, store. rewrite H.
  cbn [heap set_heap add_event]. rewrite H. cbn [heap set_heap add_event].
  rewrite list_lookup_insert_eq by (eapply lookup_lt_Some; eauto).
  reflexivity.
Qed.

Lemma set_has_fire_armor_eval self value gs w :
  heap w !! self = Some gs →
  set_has_fire_armor self value w =
    (Val tt,
     mkWorld (<[self := mkGameState (score gs) value]> (heap w))
       (stdin w) (rng w) (draws w)
       (trace w ++ [EStore self (WArmor value)])).
Proof.
  intros H. unfold set_has_fire_armor, store. rewrite H. reflexivity.
Qed.

(** ** The trivia encounter *)

(** The question [random.choice(questions)] returns in world [w]. *)
Definition drawn_question (w : World) : option Question :=
  questions !! (N.to_nat (rng w (draws w)) mod length questions)%nat.

Definition trivia_asked (q : Question) : list event :=
  [EPrint "To claim it, pass a fun trivia question.";
   EPrint (question q); EPrint (options q); EPrompt "> "].

Definition reward_lines : list event :=
  [EPrint "Correct! You've earned the fire protection armor.";
   EPrint "Now revisit the firewall..."].

Definition penalty_lines : list event :=
  [EPrint "Incorrect! The armor stays locked.";
   EPrint "The floor splits open!"].

(** The world in which [start_trivia_game] calls [return_to_core_access]
    after a correct answer, and after a wrong one. *)
Definition trivia_rewarded (self : ref) (gs : GameState) (q : Question)
    (rest : list string) (w : World) : World :=
  mkWorld (<[self := mkGameState (score gs + 5) true]> (heap w))
    rest (rng w) (S (draws w))
    (trace w ++ trivia_asked q ++ reward_lines
       ++ [EStore self (WScore (score gs + 5)); EStore self (WArmor true)]).

Definition trivia_penalised (self : ref) (gs : GameState) (q : Question)
    (rest : list string) (w : World) : World :=
  mkWorld (<[self := mkGameState (score gs - 5) (has_fire_armor gs)]> (heap w))
    rest (rng w) (S (draws w))
    (trace w ++ trivia_asked q ++ penalty_lines
       ++ [EStore self (WScore (score gs - 5))]).

Lemma answer_valid q : q ∈ questions → answer q ∈ ["a"; "b"; "c"].
Proof.
  unfold questions. intros H.
  repeat (apply elem_of_cons in H as [-> | H]); cbn;
    [repeat constructor..|].
  by apply elem_of_nil in H.
Qed.

Lemma drawn_question_valid w q :
  drawn_question w = Some q → answer q ∈ ["a"; "b"; "c"].
Proof.
  intros H. apply answer_valid. eapply list_elem_of_lookup_2. exact H.
Qed.

Lemma start_trivia_game_correct fuel self gs q line rest w :
  heap w !! self = Some gs →
  drawn_question w = Some q →
  stdin w = line :: rest →
  lower line = answer q →
  start_trivia_game (S fuel) self w =
    return_to_core_access fuel self (trivia_rewarded self gs q rest w).
Proof.
  intros Hh Hq Hin Hl.
  assert (Hv : lower line ∈ ["a"; "b"; "c"]).
  { rewrite Hl. eapply drawn_question_valid, Hq. }
  cbn -[questions get_valid_input return_to_core_access].
  erewrite bind_val by (apply random_choice_eval; exact Hq).
  cbn -[get_valid_input return_to_core_access].
  erewrite bind_val by (eapply get_valid_input_first; [exact Hv | exact Hin]).
  rewrite Hl, String.eqb_refl.
  cbn -[return_to_core_access modify_score set_has_fire_armor].
  erewrite bind_val; cycle 1.
  { cbn -[modify_score set_has_fire_armor].
    erewrite bind_val by (apply modify_score_eval; exact Hh).
    eapply set_has_fire_armor_eval. cbn.
    apply list_lookup_insert_eq. eapply lookup_lt_Some, Hh. }
  cbn. rewrite list_insert_insert_eq. unfold trivia_rewarded.
  rewrite <- !app_assoc. reflexivity.
Qed.

Lemma start_trivia_game_wrong fuel self gs q line rest w :
  heap w !! self = Some gs →
  drawn_question w = Some q →
  stdin w = line :: rest →
  lower line ∈ ["a"; "b"; "c"] →
  lower line ≠ answer q →
  start_trivia_game (S fuel) self w =
    return_to_core_access fuel self (trivia_penalised self gs q rest w).
Proof.
  intros Hh Hq Hin Hv Hl.
  cbn -[questions get_valid_input return_to_core_access].
  erewrite bind_val by (apply random_choice_eval; exact Hq).
  cbn -[get_valid_input return_to_core_access].
  erewrite bind_val by (eapply get_valid_input_first; [exact Hv | exact Hin]).
  apply String.eqb_neq in Hl. rewrite Hl.
  cbn -[return_to_core_access modify_score].
  erewrite bind_val; cycle 1.
  { cbn -[modify_score].
    erewrite bind_val by (apply modify_score_eval; exact Hh). reflexivity. }
  cbn. unfold trivia_penalised.
  replace (score gs + -5) with (score gs - 5) by lia.
  rewrite <- !app_assoc. reflexivity.
Qed.

(** * Reasoning about the scenes

    A call [m w] is described by what holds of the world it leaves, whatever
    the outcome, and by what holds in addition when it returns a value. *)

Definition post {A} (I : World → Prop) (Q : A → World → Prop)
    (r : outcome A * World) : Prop :=
  I (snd r) ∧ ∀ a, fst r = Val a → Q a (snd r).

Definition triple {A} (I P : World → Prop) (m : M A) (Q : A → World → Prop)
  : Prop :=
  ∀ w, I w → P w → post I Q (m w).

Definition non_store (e : event) : Prop :=
  match e with EStore _ _ => False | _ => True end.

(** A step that only talks to the console, the clock or the random source:
    the heap is as it was and the trace gained no attribute write. *)
Definition io_step (w w' : World) : Prop :=
  heap w' = heap w ∧ ∃ t, trace w' = trace w ++ t ∧ Forall non_store t.

Definition io_only {A} (m : M A) : Prop := ∀ w, io_step w (snd (m w)).

Lemma io_step_refl w : io_step w w.
Proof. split; [done|]. exists []. by rewrite app_nil_r. Qed.

Lemma io_step_trans w1 w2 w3 : io_step w1 w2 → io_step w2 w3 → io_step w1 w3.
Proof.
  intros [H1 (t1 & E1 & F1)] [H2 (t2 & E2 & F2)]. split; [congruence|].
  exists (t1 ++ t2). rewrite E2, E1, app_assoc. split; [done|].
  by apply Forall_app.
Qed.

Lemma io_only_ret {A} (a : A) : io_only (ret a).
Proof. intros w. apply io_step_refl. Qed.

Lemma io_only_raise {A} e : io_only (@raise A e).
Proof. intros w. apply io_step_refl. Qed.

Lemma io_only_out_of_fuel {A} : io_only (@out_of_fuel A).
Proof. intros w. apply io_step_refl. Qed.

Lemma io_only_sys_exit {A} : io_only (@sys_exit A).
Proof. intros w. apply io_step_refl. Qed.

Lemma io_only_bind {A B} (m : M A) (k : A → M B) :
  io_only m → (∀ a, io_only (k a)) → io_only (bind m k).
Proof.
  intros Hm Hk w. unfold bind. specialize (Hm w).
  destruct (m w) as [[a|e| |] w']; cbn in *; try done.
  eapply io_step_trans; [exact Hm | apply Hk].
Qed.

Lemma io_only_emit e : non_store e → io_only (emit e).
Proof.
  intros He w. split; [done|]. exists [e]. split; [done|]. by constructor.
Qed.

Lemma io_only_print line : io_only (print line).
Proof. by apply io_only_emit. Qed.

Lemma io_only_type_text text : io_only (type_text text).
Proof. apply io_only_print. Qed.

Lemma io_only_time_sleep ms : io_only (time_sleep ms).
Proof. apply io_only_ret. Qed.

Lemma io_only_clear : io_only os_system_clear.
Proof. by apply io_only_emit. Qed.

Lemma io_only_input prompt : io_only (input prompt).
Proof.
  intros w. unfold input.
  destruct (stdin w); (split; [done|]); exists [EPrompt prompt];
    (split; [done|]); by constructor.
Qed.

Lemma io_only_random_draw : io_only random_draw.
Proof. intros w. split; [done|]. exists []. cbn. by rewrite app_nil_r. Qed.

Lemma io_only_random_random : io_only random_random.
Proof.
  apply io_only_bind; [apply io_only_random_draw | intros; apply io_only_ret].
Qed.

Lemma io_only_random_choice {A} (seq : list A) : io_only (random_choice seq).
Proof.
  apply io_only_bind; [apply io_only_random_draw | intros k].
  destruct (seq !! _); [apply io_only_ret | apply io_only_raise].
Qed.

Lemma io_only_print_pause text : io_only (print_pause text).
Proof.
  apply io_only_bind; [apply io_only_type_text | intros; apply io_only_time_sleep].
Qed.

Lemma io_only_print_lines lines : io_only (print_lines_with_pause lines).
Proof.
  induction lines as [|l lines IH]; [apply io_only_ret|]. cbn.
  apply io_only_bind; [apply io_only_type_text | intros _].
  apply io_only_bind; [apply io_only_time_sleep | intros _; exact IH].
Qed.

Lemma io_only_get_valid_input_loop turns prompt valid err :
  io_only (get_valid_input_loop turns prompt valid err).
Proof.
  induction turns as [|turns IH]; [apply io_only_out_of_fuel|].
  cbn -[error_text].
  apply io_only_bind; [apply io_only_input | intros line].
  destruct (bool_decide _); [apply io_only_ret|].
  apply io_only_bind; [apply io_only_print | intros _; exact IH].
Qed.

Lemma io_only_get_valid_input prompt valid err :
  io_only (get_valid_input prompt valid err).
Proof. intros w. apply io_only_get_valid_input_loop. Qed.

Lemma io_only_intro r : io_only (intro r).
Proof.
  apply io_only_bind; [apply io_only_time_sleep | intros _].
  apply io_only_print_lines.
Qed.

Lemma io_only_show_path_choices : io_only show_path_choices.
Proof. apply io_only_print_lines. Qed.

Create HintDb io discriminated.
#[local] Hint Resolve io_only_ret io_only_raise io_only_out_of_fuel
  io_only_sys_exit
  io_only_print io_only_type_text io_only_time_sleep io_only_clear
  io_only_input io_only_random_random io_only_random_choice
  io_only_print_pause io_only_print_lines io_only_get_valid_input
  io_only_intro io_only_show_path_choices : io.

Section Triples.
Context (I : World → Prop).
Hypothesis I_io : ∀ w w', io_step w w' → I w → I w'.

Lemma post_bind {A B} (m : M A) (k : A → M B) Q1 Q w :
  post I Q1 (m w) →
  (∀ a w', I w' → Q1 a w' → post I Q (k a w')) →
  post I Q (bind m k w).
Proof.
  unfold post, bind. intros [HI HQ] Hk.
  destruct (m w) as [[a|e| |] w']; cbn in *; try (split; [done|]; done).
  apply Hk; [done|]. by apply HQ.
Qed.

Lemma post_weaken {A} (Q1 Q : A → World → Prop) r :
  post I Q1 r → (∀ a, Q1 a (snd r) → Q a (snd r)) → post I Q r.
Proof. intros [HI HQ] H. split; [done|]. intros a Ha. by apply H, HQ. Qed.

Lemma post_io {A} (m : M A) w :
  io_only m → I w → post I (λ _ w', io_step w w') (m w).
Proof. intros Hm HI. split; [by eapply I_io | intros; apply Hm]. Qed.

Lemma post_load self w :
  I w → post I (λ gs w', w' = w ∧ heap w !! self = Some gs) (load self w).
Proof.
  intros HI. unfold load. destruct (heap w !! self) as [gs|]; split; cbn;
    try done.
  intros a [= <-]. done.
Qed.

Lemma post_is_game_over self w :
  I w →
  post I (λ b w', w' = w ∧ ∃ gs, heap w !! self = Some gs
                            ∧ b = (score gs <=? 0))
    (is_game_over self w).
Proof.
  intros HI. eapply post_bind; [by apply post_load|].
  intros gs w' _ [-> Hgs]. split; [done|]. intros b [= <-]. eauto.
Qed.

Lemma post_get_has_fire_armor self w :
  I w →
  post I (λ b w', w' = w ∧ ∃ gs, heap w !! self = Some gs
                            ∧ b = has_fire_armor gs)
    (get_has_fire_armor self w).
Proof.
  intros HI. eapply post_bind; [by apply post_load|].
  intros gs w' _ [-> Hgs]. split; [done|]. intros b [= <-]. eauto.
Qed.

Lemma post_out_of_fuel {A} (Q : A → World → Prop) w :
  I w → post I Q (out_of_fuel w).
Proof. intros HI. split; [done|]. intros a [=]. Qed.

Lemma post_sys_exit {A} (Q : A → World → Prop) w :
  I w → post I Q (sys_exit w).
Proof. intros HI. split; [done|]. intros a [=]. Qed.
End Triples.

(** ** What no scene undoes *)

Definition armor_at (x : ref) (h : list GameState) : bool :=
  match h !! x with
  | Some gs => has_fire_armor gs
  | None => false
  end.

(** World [w] lies after a world with heap [h0] and trace [t0]: the trace
    was only extended, no object disappeared, and an object that had the
    armor still has it. *)
Record evolved (h0 : list GameState) (t0 : list event) (w : World) : Prop := {
  ev_trace : t0 `prefix_of` trace w;
  ev_heap : (length h0 <= length (heap w))%nat;
  ev_armor : ∀ x, armor_at x h0 = true → armor_at x (heap w) = true
}.

Definition top : World → Prop := λ _, True.
Definition always {A} : A → World → Prop := λ _ _, True.
Definition never {A} : A → World → Prop := λ _ _, False.

(** The specification of the fourteen scene functions at one fuel level,
    for an invariant [I]: [main_game_loop], [handle_play_again] and
    [reset_game] never return.  [Pcore] is what holds of the world when
    [enter_core_access] is called, [Ptrivia] when [handle_random_event] and
    [start_trivia_game] are. *)
Definition scenes_keep (I : World → Prop) (Pcore Ptrivia : ref → World → Prop)
    (fuel : nat) : Prop :=
  (∀ r, triple I top (main_game_loop fuel r) never)
  ∧ (∀ r e, triple I top (handle_play_again fuel r e) never)
  ∧ (∀ r, triple I top (reset_game fuel r) never)
  ∧ (∀ cb r, triple I top (cb r) always →
             triple I top (handle_jump_sequence fuel cb r) always)
  ∧ (∀ r, triple I top (enter_firewall_path fuel r) always)
  ∧ (∀ r, triple I top (handle_bridge_crossing fuel r) always)
  ∧ (∀ r, triple I top (handle_firewall_obstacle fuel r) always)
  ∧ (∀ r, triple I top (firewall_choice_loop fuel r) always)
  ∧ (∀ r, triple I top (handle_fan_obstacle fuel r) always)
  ∧ (∀ r, triple I top (fan_choice_loop fuel r) always)
  ∧ (∀ r, triple I (Pcore r) (enter_core_access fuel r) always)
  ∧ (∀ r, triple I (Ptrivia r) (handle_random_event fuel r) always)
  ∧ (∀ r, triple I top (return_to_core_access fuel r) always)
  ∧ (∀ r, triple I (Ptrivia r) (start_trivia_game fuel r) always).

Lemma armor_at_insert x r gs (h : list GameState) :
  armor_at x (<[r := gs]> h) =
    if decide (x = r ∧ (r < length h)%nat) then has_fire_armor gs
    else armor_at x h.
Proof.
  unfold armor_at. destruct (decide (x = r)) as [->|Hne].
  - destruct (decide (r < length h)%nat) as [Hlt|Hge].
    + rewrite list_lookup_insert_eq by done.
      rewrite decide_True; done.
    + rewrite list_insert_ge by lia. rewrite decide_False; [done|]. tauto.
  - rewrite list_lookup_insert_ne by done. rewrite decide_False; [done|]. tauto.
Qed.

Lemma armor_at_app x (h h' : list GameState) :
  armor_at x h = true → armor_at x (h ++ h') = true.
Proof.
  unfold armor_at. destruct (h !! x) as [gs|] eqn:E; [|done].
  intros Hgs. by rewrite (lookup_app_l_Some _ _ _ _ E).
Qed.

Lemma evolved_refl w : evolved (heap w) (trace w) w.
Proof. split; done. Qed.

Lemma evolved_io h0 t0 w w' : io_step w w' → evolved h0 t0 w → evolved h0 t0 w'.
Proof.
  intros [Hh (t & Ht & _)] [H1 H2 H3]. split.
  - rewrite Ht. by apply prefix_app_r.
  - by rewrite Hh.
  - by rewrite Hh.
Qed.

Lemma evolved_new h0 t0 w :
  evolved h0 t0 w → post (evolved h0 t0) always (GameState_new w).
Proof.
  intros [H1 H2 H3]. split; [|done]. cbn. split; cbn.
  - done.
  - rewrite length_app. lia.
  - intros x Hx. by apply armor_at_app, H3.
Qed.

(** The two attribute writes the program performs keep [evolved]. *)
Lemma evolved_store h0 t0 self wr w :
  wr ≠ WArmor false →
  evolved h0 t0 w → post (evolved h0 t0) always (store self wr w).
Proof.
  intros Hwr [H1 H2 H3]. unfold store.
  destruct (heap w !! self) as [gs|] eqn:E; (split; [|done]); [|done].
  cbn. split; cbn.
  - by apply prefix_app_r.
  - by rewrite length_insert.
  - intros x Hx. specialize (H3 x Hx). rewrite armor_at_insert.
    case_decide as Hd; [|done]. destruct Hd as [-> _].
    unfold armor_at in H3. rewrite E in H3.
    destruct wr as [v|[]]; cbn; done.
Qed.

Lemma evolved_modify_score h0 t0 self amount w :
  evolved h0 t0 w → post (evolved h0 t0) always (modify_score self amount w).
Proof.
  intros H. unfold modify_score.
  eapply post_bind; [by apply post_load|]. intros gs w1 _ [-> _].
  eapply post_bind; [by apply evolved_store|]. intros _ w2 H2 _.
  eapply post_bind; [by apply post_load|]. intros gs' w3 _ [-> _].
  split; done.
Qed.

Lemma evolved_set_armor h0 t0 self w :
  evolved h0 t0 w →
  post (evolved h0 t0) always (set_has_fire_armor self true w).
Proof. intros H. by apply evolved_store. Qed.

(** Walking through the body of a scene: at each call, use what is known
    about the callee. *)
Ltac io_call I_io :=
  apply (post_io _ I_io); [solve [auto with io] | assumption].

Ltac tail_call tac :=
  eapply post_weaken;
  [tac | intros ? ?; first [done | unfold never, always in *; tauto]].

Ltac walk leaf :=
  lazymatch goal with
  | |- post _ _ (bind (when _ _) _ _) =>
      eapply (post_bind _ _ _ always); [|intros ? ? ? ?]; walk leaf
  | |- post _ _ (bind (if _ then _ else _) _ _) =>
      eapply (post_bind _ _ _ always); [|intros ? ? ? ?]; walk leaf
  | |- post _ _ (bind (bind _ _) _ _) =>
      eapply (post_bind _ _ _ always); [|intros ? ? ? ?]; walk leaf
  | |- post _ _ (bind _ _ _) =>
      eapply post_bind; [leaf | intros ? ? ? ?; walk leaf]
  | |- post _ _ ((if ?b then _ else _) _) => destruct b; walk leaf
  | |- post _ _ (when ?b _ _) => destruct b; cbn [when]; walk leaf
  | |- post _ _ (ret _ _) => split; [assumption | try done]
  | |- _ => tail_call leaf
  end.

Ltac unfold_scene :=
  cbn [main_game_loop handle_play_again reset_game handle_jump_sequence
       enter_firewall_path handle_bridge_crossing handle_firewall_obstacle
       firewall_choice_loop handle_fan_obstacle fan_choice_loop
       enter_core_access handle_random_event return_to_core_access
       start_trivia_game].

Ltac split_all := repeat match goal with |- _ ∧ _ => split end.

Ltac leafA Hio :=
  first [ apply post_sys_exit; assumption
        | io_call Hio
        | apply evolved_new; assumption
        | apply evolved_modify_score; assumption
        | apply evolved_set_armor; assumption
        | apply post_load; assumption
        | apply post_is_game_over; assumption
        | apply post_get_has_fire_armor; assumption
        | match goal with H : _ |- _ => apply H; solve [trivial] end
        | match goal with
          | H : ∀ cb r, _ → ∀ w, _ |- _ =>
              apply H; [solve [auto] | assumption | trivial]
          end ].

Lemma scenes_evolve h0 t0 fuel :
  scenes_keep (evolved h0 t0) (λ _, top) (λ _, top) fuel.
Proof.
  induction fuel as [|fuel IH].
  { unfold scenes_keep. split_all; intros; intros w Hw _;
      by apply post_out_of_fuel. }
  destruct IH as (Hmain & Hplay & Hreset & Hjump & Hfire & Hbridge & Hwall
                  & Hwallloop & Hfan & Hfanloop & Hcore & Hrandom & Hreturn
                  & Htrivia).
  unfold triple, top in *.
  pose proof (evolved_io h0 t0) as Hio.
  unfold scenes_keep. split_all; intros; unfold triple, top in *;
    intros w Hw _; unfold_scene; walk ltac:(leafA Hio).
Qed.

(** ** The session invariant *)

(** How many times the trace writes [has_fire_armor] of object [x]. *)
Fixpoint armor_writes (x : ref) (t : list event) : nat :=
  match t with
  | [] => 0
  | EStore y (WArmor _) :: t' =>
      (if decide (x = y) then 1 else 0) + armor_writes x t'
  | _ :: t' => armor_writes x t'
  end.

Definition non_armor (e : event) : Prop :=
  match e with EStore _ (WArmor _) => False | _ => True end.

(** A trace in which [has_fire_armor] is written only as the last step of
    the reward of a correct trivia answer: the two lines of the reward,
    the score raised, the armor set to [True]. *)
Inductive armor_only_as_reward : list event → Prop :=
  | aor_nil : armor_only_as_reward []
  | aor_other t e :
      armor_only_as_reward t → non_armor e → armor_only_as_reward (t ++ [e])
  | aor_reward t x v :
      armor_only_as_reward t →
      armor_only_as_reward
        (t ++ reward_lines ++ [EStore x (WScore v); EStore x (WArmor true)]).

(** The scores an object can have, without and with the armor. *)
Definition ok (gs : GameState) : Prop :=
  if has_fire_armor gs then score gs = 10 ∨ score gs = 15
  else score gs = 0 ∨ score gs = 5 ∨ score gs = 10.

Record Inv (w : World) : Prop := {
  inv_ok : Forall ok (heap w);
  inv_once : ∀ x, armor_writes x (trace w)
                  = if armor_at x (heap w) then 1%nat else 0%nat;
  inv_log : armor_only_as_reward (trace w)
}.

(** The object is still in play: the check of [main_game_loop] passed. *)
Definition live (r : ref) (w : World) : Prop :=
  ∃ gs, heap w !! r = Some gs ∧ 0 < score gs.

(** In play and without the armor: where the trivia can be reached. *)
Definition unarmored (r : ref) (w : World) : Prop :=
  ∃ gs, heap w !! r = Some gs ∧ 0 < score gs ∧ has_fire_armor gs = false.

Lemma armor_writes_app x t1 t2 :
  armor_writes x (t1 ++ t2) = (armor_writes x t1 + armor_writes x t2)%nat.
Proof.
  induction t1 as [|e t1 IH]; [done|]. cbn.
  destruct e as [| | |y [v|b]]; rewrite ?IH; lia.
Qed.

Lemma armor_writes_non_armor x t :
  Forall non_armor t → armor_writes x t = 0%nat.
Proof.
  induction 1 as [|e t He _ IH]; [done|].
  destruct e as [| | |y [v|b]]; cbn in *; done.
Qed.

Lemma non_store_non_armor e : non_store e → non_armor e.
Proof. by destruct e as [| | |y [v|b]]. Qed.

Lemma armor_only_as_reward_app t t' :
  armor_only_as_reward t → Forall non_armor t' → armor_only_as_reward (t ++ t').
Proof.
  intros Ht Ht'. revert t Ht.
  induction Ht' as [|e t' He _ IH]; intros t Ht.
  - by rewrite app_nil_r.
  - rewrite (cons_middle e t t'), app_assoc. apply IH. by constructor.
Qed.

Lemma Inv_io w w' : io_step w w' → Inv w → Inv w'.
Proof.
  intros [Hh (t & Ht & Hns)] [H1 H2 H3].
  assert (Forall non_armor t) as Hna.
  { eapply Forall_impl; [exact Hns | apply non_store_non_armor]. }
  split.
  - by rewrite Hh.
  - intros x. rewrite Hh, Ht, armor_writes_app.
    rewrite (armor_writes_non_armor x t) by done.
    rewrite Nat.add_0_r. apply H2.
  - rewrite Ht. by apply armor_only_as_reward_app.
Qed.

Lemma live_io r w w' : io_step w w' → live r w → live r w'.
Proof. intros [Hh _]. unfold live. by rewrite Hh. Qed.

Lemma unarmored_io r w w' : io_step w w' → unarmored r w → unarmored r w'.
Proof. intros [Hh _]. unfold unarmored. by rewrite Hh. Qed.

Lemma armor_at_snoc_init x (h : list GameState) :
  armor_at x (h ++ [GameState_init]) = armor_at x h.
Proof.
  unfold armor_at. destruct (decide (x < length h)%nat) as [Hlt|Hge].
  - by rewrite lookup_app_l.
  - rewrite lookup_app_r by lia. rewrite (lookup_ge_None_2 h) by lia.
    by destruct (x - length h)%nat as [|[|n]].
Qed.

Lemma Inv_new w : Inv w → post Inv always (GameState_new w).
Proof.
  intros [H1 H2 H3]. split; [|done]. cbn. split; cbn.
  - apply Forall_app. split; [done|]. apply Forall_singleton.
    unfold ok. cbn. lia.
  - intros x. rewrite armor_at_snoc_init. apply H2.
  - done.
Qed.

(** The reward of a correct answer, as [start_trivia_game] runs it. *)
Lemma reward_eval self gs w :
  heap w !! self = Some gs →
  bind (print_lines_with_pause [
          "Correct! You've earned the fire protection armor.";
          "Now revisit the firewall..."])
    (λ _, bind (modify_score self 5) (λ _, set_has_fire_armor self true)) w
  = (Val tt,
     mkWorld (<[self := mkGameState (score gs + 5) true]> (heap w))
       (stdin w) (rng w) (draws w)
       (trace w ++ reward_lines
          ++ [EStore self (WScore (score gs + 5)); EStore self (WArmor true)])).
Proof.
  intros Hh. cbn -[modify_score set_has_fire_armor].
  erewrite bind_val by (apply modify_score_eval; exact Hh).
  erewrite set_has_fire_armor_eval
    by (cbn; apply list_lookup_insert_eq; eapply lookup_lt_Some, Hh).
  cbn. rewrite list_insert_insert_eq, <- !app_assoc. reflexivity.
Qed.

(** The penalty of a wrong answer. *)
Lemma penalty_eval self gs w :
  heap w !! self = Some gs →
  bind (print_lines_with_pause [
          "Incorrect! The armor stays locked.";
          "The floor splits open!"])
    (λ _, bind (modify_score self (-5)) (λ _, ret tt)) w
  = (Val tt,
     mkWorld (<[self := mkGameState (score gs - 5) (has_fire_armor gs)]> (heap w))
       (stdin w) (rng w) (draws w)
       (trace w ++ penalty_lines ++ [EStore self (WScore (score gs - 5))])).
Proof.
  intros Hh. cbn -[modify_score].
  erewrite bind_val by (apply modify_score_eval; exact Hh).
  cbn. replace (score gs + -5) with (score gs - 5) by lia.
  rewrite <- !app_assoc. reflexivity.
Qed.

Lemma Inv_reward self w :
  Inv w → unarmored self w →
  post Inv always
    (bind (print_lines_with_pause [
             "Correct! You've earned the fire protection armor.";
             "Now revisit the firewall..."])
       (λ _, bind (modify_score self 5) (λ _, set_has_fire_armor self true)) w).
Proof.
  intros [H1 H2 H3] (gs & Hh & Hpos & Harm).
  rewrite (reward_eval _ _ _ Hh). split; [|done]. cbn.
  assert (ok gs) as Hok by (eapply Forall_lookup_1; eauto).
  unfold ok in Hok. rewrite Harm in Hok.
  split; cbn.
  - apply Forall_insert; [done|]. unfold ok. cbn. lia.
  - intros x. rewrite armor_at_insert, armor_writes_app. cbn.
    specialize (H2 x). destruct (decide (x = self)) as [->|Hne].
    + rewrite decide_True by (split; [done | eapply lookup_lt_Some, Hh]).
      unfold armor_at in H2. rewrite Hh, Harm in H2. rewrite H2. done.
    + rewrite decide_False by tauto. rewrite H2. lia.
  - by constructor.
Qed.

Lemma Inv_penalty self w :
  Inv w → unarmored self w →
  post Inv always
    (bind (print_lines_with_pause [
             "Incorrect! The armor stays locked.";
             "The floor splits open!"])
       (λ _, bind (modify_score self (-5)) (λ _, ret tt)) w).
Proof.
  intros [H1 H2 H3] (gs & Hh & Hpos & Harm).
  rewrite (penalty_eval _ _ _ Hh). split; [|done]. cbn.
  assert (ok gs) as Hok by (eapply Forall_lookup_1; eauto).
  unfold ok in Hok. rewrite Harm in Hok.
  split; cbn.
  - apply Forall_insert; [done|]. unfold ok. cbn. rewrite Harm. lia.
  - intros x. rewrite armor_at_insert, armor_writes_app. cbn.
    specialize (H2 x). rewrite Nat.add_0_r.
    case_decide as Hd; [|done]. destruct Hd as [-> _].
    unfold armor_at in H2. by rewrite Hh in H2.
  - apply armor_only_as_reward_app; [done|]. repeat constructor.
Qed.

Ltac leafB :=
  first [ apply post_sys_exit; assumption
        | io_call Inv_io
        | apply Inv_new; assumption
        | apply post_load; assumption
        | apply post_is_game_over; assumption
        | apply post_get_has_fire_armor; assumption
        | match goal with H : _ |- _ => apply H; solve [trivial] end
        | match goal with
          | H : ∀ cb r, _ → ∀ w, _ |- _ =>
              apply H; [solve [auto] | assumption | trivial]
          end ].

(** One console step that leaves fact [H] about the heap in force. *)
Ltac io_keeping lem H :=
  let Hs := fresh "Hs" in
  eapply post_bind; [io_call Inv_io | intros ? ? ? Hs];
  apply (lem _ _ _ Hs) in H; clear Hs.

Lemma scenes_sound fuel : scenes_keep Inv live unarmored fuel.
Proof.
  induction fuel as [|fuel IH].
  { unfold scenes_keep. split_all; intros; intros w Hw _;
      by apply post_out_of_fuel. }
  destruct IH as (Hmain & Hplay & Hreset & Hjump & Hfire & Hbridge & Hwall
                  & Hwallloop & Hfan & Hfanloop & Hcore & Hrandom & Hreturn
                  & Htrivia).
  unfold triple, top in *.
  unfold scenes_keep. split_all; intros; unfold triple, top in *;
    intros w Hw Hp; unfold_scene.
  all: try solve [walk leafB].
  - (* main_game_loop: the check before the choice *)
    eapply post_bind; [io_call Inv_io | intros _ w1 Hw1 _].
    eapply post_bind; [by apply post_is_game_over|].
    intros over w2 _ [-> (gs & Hgs & Hover)].
    eapply (post_bind _ _ _ (λ _ w', live r w')).
    { destruct over; cbn [when].
      - tail_call ltac:(apply Hplay; trivial).
      - split; [done|]. intros _ _. exists gs. split; [done|].
        symmetry in Hover. apply Z.leb_gt in Hover. lia. }
    intros _ w3 Hw3 Hlive.
    io_keeping live_io Hlive.
    eapply (post_bind _ _ _ always).
    { destruct (_ =? "1")%string; [tail_call ltac:(apply Hfire; trivial)|].
      destruct (_ =? "2")%string; [|by split].
      tail_call ltac:(apply Hcore; trivial). }
    intros _ w5 Hw5 _. by apply Hmain.
  - (* enter_core_access: the trivia is offered without the armor only *)
    io_keeping live_io Hp.
    eapply post_bind; [by apply post_get_has_fire_armor|].
    intros armor w2 _ [-> (gs & Hgs & ->)].
    destruct (has_fire_armor gs) eqn:Harm; [walk leafB|].
    assert (unarmored r w') as Hun.
    { destruct Hp as (gs' & Hgs' & Hpos). exists gs.
      rewrite Hgs in Hgs'. injection Hgs' as <-. done. }
    io_keeping unarmored_io Hun.
    io_keeping unarmored_io Hun.
    destruct (_ =? "y")%string; [by apply Hrandom | walk leafB].
  - (* handle_random_event *)
    io_keeping unarmored_io Hp.
    destruct (_ =? "explosion")%string; [walk leafB|].
    io_keeping unarmored_io Hp.
    by apply Htrivia.
  - (* start_trivia_game: reward or penalty, each once in play *)
    do 5 io_keeping unarmored_io Hp.
    eapply (post_bind _ _ _ always).
    { destruct (_ =? _)%string; [by apply Inv_reward | by apply Inv_penalty]. }
    intros _ w6 Hw6 _. by apply Hreturn.
Qed.

(** ** The scenes of the narrative engine, by name *)

Inductive scene :=
  | PathChoice | FirewallPath | BridgeCrossing | JumpSequence
  | FirewallObstacle | CoreAccess | RandomEvent | Trivia
  | ReturnToCoreAccess | FanObstacle
  | PlayAgainPrompt (is_ending : bool) | Restart.

(** Entering a scene is calling its function; the jump sequence is only
    ever called with [handle_firewall_obstacle] as its callback. *)
Definition enter (s : scene) (fuel : nat) (game_state : ref) : M unit :=
  match s with
  | PathChoice => main_game_loop fuel game_state
  | FirewallPath => enter_firewall_path fuel game_state
  | BridgeCrossing => handle_bridge_crossing fuel game_state
  | JumpSequence =>
      handle_jump_sequence fuel (handle_firewall_obstacle fuel) game_state
  | FirewallObstacle => handle_firewall_obstacle fuel game_state
  | CoreAccess => enter_core_access fuel game_state
  | RandomEvent => handle_random_event fuel game_state
  | Trivia => start_trivia_game fuel game_state
  | ReturnToCoreAccess => return_to_core_access fuel game_state
  | FanObstacle => handle_fan_obstacle fuel game_state
  | PlayAgainPrompt is_ending => handle_play_again fuel game_state is_ending
  | Restart => reset_game fuel game_state
  end.

Lemma scene_evolves s fuel r w :
  evolved (heap w) (trace w) (snd (enter s fuel r w)).
Proof.
  destruct (scenes_evolve (heap w) (trace w) fuel)
    as (Hmain & Hplay & Hreset & Hjump & Hfire & Hbridge & Hwall
        & Hwallloop & Hfan & Hfanloop & Hcore & Hrandom & Hreturn & Htrivia).
  pose proof (evolved_refl w) as Hw.
  destruct s; cbn [enter];
    try (match goal with H : ∀ r, triple _ _ _ _ |- _ =>
           apply (H r w Hw Logic.I) end).
  - apply (Hjump _ r (Hwall r) w Hw Logic.I).
  - apply (Hplay r is_ending w Hw Logic.I).
Qed.

Lemma scene_trace_mono s fuel r w :
  trace w `prefix_of` trace (snd (enter s fuel r w)).
Proof. apply scene_evolves. Qed.

Lemma main_game_loop_never fuel r w a : fst (main_game_loop fuel r w) ≠ Val a.
Proof.
  destruct (scenes_evolve (heap w) (trace w) fuel) as (Hmain & _).
  intros H. by apply (Hmain r w (evolved_refl w) Logic.I) in H.
Qed.

Lemma handle_play_again_never fuel r e w a :
  fst (handle_play_again fuel r e w) ≠ Val a.
Proof.
  destruct (scenes_evolve (heap w) (trace w) fuel) as (_ & Hplay & _).
  intros H. by apply (Hplay r e w (evolved_refl w) Logic.I) in H.
Qed.

Lemma reset_game_never fuel r w a : fst (reset_game fuel r w) ≠ Val a.
Proof.
  destruct (scenes_evolve (heap w) (trace w) fuel) as (_ & _ & Hreset & _).
  intros H. by apply (Hreset r w (evolved_refl w) Logic.I) in H.
Qed.

(** A call that does not return ends the caller too. *)
Lemma bind_stops {A} (m : M A) (k : A → M A) w :
  (∀ a, fst (m w) ≠ Val a) → bind m k w = m w.
Proof.
  unfold bind. intros H. destruct (m w) as [[a|e| |] w']; try done.
  by destruct (H a).
Qed.

Lemma bind_trace_mono {A B} (m : M A) (k : A → M B) w t :
  t `prefix_of` trace (snd (m w)) →
  (∀ a w', trace w' `prefix_of` trace (snd (k a w'))) →
  t `prefix_of` trace (snd (bind m k w)).
Proof.
  unfold bind. intros Hm Hk. destruct (m w) as [[a|e| |] w']; try done.
  etrans; [exact Hm | apply Hk].
Qed.

(** [get_valid_input] shows its prompt, whatever is on standard input. *)
Lemma get_valid_input_prompts prompt valid err w :
  (trace w ++ [EPrompt prompt])
    `prefix_of` trace (snd (get_valid_input prompt valid err w)).
Proof.
  assert (∀ bads, [EPrompt prompt] `prefix_of`
            retries prompt (error_text err valid) bads ++ [EPrompt prompt])
    as Hpre.
  { intros [|b bads]; [done|]. cbn -[error_text]. by apply prefix_cons, prefix_nil. }
  destruct (first_valid_line valid (stdin w))
    as [(bads & good & rest & Hin & Hb & Hg)|Hall].
  - rewrite (get_valid_input_accepts _ _ _ _ _ _ _ Hb Hg Hin). cbn -[error_text].
    by apply prefix_app.
  - unfold get_valid_input.
    rewrite get_valid_input_loop_eof by done. cbn -[error_text].
    by apply prefix_app.
Qed.

(** The program keeps the session invariant, whatever is typed and drawn. *)
Lemma run_Inv fuel lines oracle : Inv (snd (run fuel lines oracle)).
Proof.
  destruct (scenes_sound fuel) as (Hmain & _).
  unfold run, program. cbn -[main_game_loop].
  apply Hmain; [|done]. split; cbn.
  - apply Forall_singleton. unfold ok. cbn. lia.
  - by intros [|[|x]].
  - apply (armor_only_as_reward_app []); [constructor|]. repeat constructor.
Qed.

(** ** More fuel only continues the run

    A call that ran out of fuel stopped somewhere in the middle of the run;
    with more fuel the run goes on from that world, and a call that ended
    with enough fuel ends the same way with more. *)

Definition steady {A} (m : M A) : Prop :=
  ∀ w, evolved (heap w) (trace w) (snd (m w)).

Definition approx {A} (m1 m2 : M A) : Prop :=
  ∀ w, match m1 w with
       | (OutOfFuel, w1) => evolved (heap w1) (trace w1) (snd (m2 w))
       | r => m2 w = r
       end.

Lemma evolved_trans h0 t0 w2 w3 :
  evolved h0 t0 w2 →
  evolved (heap w2) (trace w2) w3 →
  evolved h0 t0 w3.
Proof.
  intros [T1 L1 A1] [T2 L2 A2]. split.
  - by etrans.
  - lia.
  - auto.
Qed.

Lemma steady_ret {A} (a : A) : steady (ret a).
Proof. intros w. apply evolved_refl. Qed.

Lemma steady_io {A} (m : M A) : io_only m → steady m.
Proof. intros Hm w. eapply evolved_io; [apply Hm | apply evolved_refl]. Qed.

Lemma steady_bind {A B} (m : M A) (k : A → M B) :
  steady m → (∀ a, steady (k a)) → steady (bind m k).
Proof.
  intros Hm Hk w. unfold bind. specialize (Hm w).
  destruct (m w) as [[a|e| |] w']; cbn in *; try done.
  eapply evolved_trans; [exact Hm | apply Hk].
Qed.

Lemma steady_triple {A} (m : M A) Q :
  (∀ h0 t0, triple (evolved h0 t0) top m Q) → steady m.
Proof. intros H w. by apply (H _ _ w (evolved_refl w)). Qed.

Lemma steady_load self : steady (load self).
Proof.
  apply (steady_triple _ (λ gs w', True)). intros h0 t0 w Hw _.
  eapply post_weaken; [by apply post_load | done].
Qed.

Lemma steady_is_game_over self : steady (is_game_over self).
Proof.
  apply steady_bind; [apply steady_load | intros; apply steady_ret].
Qed.

Lemma steady_get_has_fire_armor self : steady (get_has_fire_armor self).
Proof.
  apply steady_bind; [apply steady_load | intros; apply steady_ret].
Qed.

Lemma steady_new : steady GameState_new.
Proof.
  apply (steady_triple _ always). intros h0 t0 w Hw _. by apply evolved_new.
Qed.

Lemma steady_modify_score self amount : steady (modify_score self amount).
Proof.
  apply (steady_triple _ always). intros h0 t0 w Hw _.
  by apply evolved_modify_score.
Qed.

Lemma steady_set_armor self : steady (set_has_fire_armor self true).
Proof.
  apply (steady_triple _ always). intros h0 t0 w Hw _.
  by apply evolved_set_armor.
Qed.

(** The fourteen scene functions at one fuel level, for a property of
    calls; the jump sequence for the callback it is given. *)
Definition scenes_all (P : M unit → Prop) (fuel : nat) : Prop :=
  (∀ r, P (main_game_loop fuel r))
  ∧ (∀ r e, P (handle_play_again fuel r e))
  ∧ (∀ r, P (reset_game fuel r))
  ∧ (∀ cb r, P (cb r) → P (handle_jump_sequence fuel cb r))
  ∧ (∀ r, P (enter_firewall_path fuel r))
  ∧ (∀ r, P (handle_bridge_crossing fuel r))
  ∧ (∀ r, P (handle_firewall_obstacle fuel r))
  ∧ (∀ r, P (firewall_choice_loop fuel r))
  ∧ (∀ r, P (handle_fan_obstacle fuel r))
  ∧ (∀ r, P (fan_choice_loop fuel r))
  ∧ (∀ r, P (enter_core_access fuel r))
  ∧ (∀ r, P (handle_random_event fuel r))
  ∧ (∀ r, P (return_to_core_access fuel r))
  ∧ (∀ r, P (start_trivia_game fuel r)).

Lemma scenes_steady fuel : scenes_all steady fuel.
Proof.
  unfold scenes_all. split_all; intros; intros w;
    destruct (scenes_evolve (heap w) (trace w) fuel)
      as (Hmain & Hplay & Hreset & Hjump & Hfire & Hbridge & Hwall
          & Hwallloop & Hfan & Hfanloop & Hcore & Hrandom & Hreturn
          & Htrivia);
    pose proof (evolved_refl w) as Hw;
    try (match goal with H : ∀ r, triple _ _ _ _ |- _ =>
           apply (H r w Hw Logic.I) end).
  - apply (Hplay r e w Hw Logic.I).
  - apply (Hjump cb r); [|done..]. intros w' Hw' _. split; [|done].
    eapply evolved_trans; [exact Hw' | apply H].
Qed.

Lemma approx_refl {A} (m : M A) : approx m m.
Proof.
  intros w. destruct (m w) as [[a|e| |] w'] eqn:E; try done.
Qed.

Lemma approx_out_of_fuel {A} (m : M A) : steady m → approx out_of_fuel m.
Proof. intros Hm w. apply Hm. Qed.

Lemma approx_bind {A B} (m1 m2 : M A) (k1 k2 : A → M B) :
  approx m1 m2 →
  (∀ a, approx (k1 a) (k2 a)) →
  (∀ a, steady (k2 a)) →
  approx (bind m1 k1) (bind m2 k2).
Proof.
  intros Hm Hk Hs w. unfold bind. specialize (Hm w).
  destruct (m1 w) as [[a|e| |] w1]; cbn in *.
  - rewrite Hm. apply Hk.
  - by rewrite Hm.
  - destruct (m2 w) as [[a|e| |] w2]; cbn in *; try done.
    eapply evolved_trans; [exact Hm | apply Hs].
  - by rewrite Hm.
Qed.

Ltac steady_leaf :=
  first [ apply steady_ret
        | apply steady_io; solve [auto with io]
        | apply steady_new
        | apply steady_modify_score
        | apply steady_set_armor
        | apply steady_is_game_over
        | apply steady_get_has_fire_armor
        | match goal with H : _ |- _ => apply H; solve [auto] end ].

Ltac steady_walk :=
  lazymatch goal with
  | |- steady (bind _ _) =>
      apply steady_bind; [steady_walk | intros ?; steady_walk]
  | |- steady (if ?b then _ else _) => destruct b; steady_walk
  | |- steady (when ?b _) => destruct b; cbn [when]; steady_walk
  | |- _ => steady_leaf
  end.

Ltac approx_leaf :=
  first [ apply approx_refl
        | match goal with H : _ |- _ => apply H; solve [auto] end ].

Ltac approx_walk :=
  lazymatch goal with
  | |- approx (bind _ _) (bind _ _) =>
      apply approx_bind;
      [approx_walk | intros ?; approx_walk | intros ?; steady_walk]
  | |- approx (if ?b then _ else _) (if ?b then _ else _) =>
      destruct b; approx_walk
  | |- approx (when ?b _) (when ?b _) => destruct b; cbn [when]; approx_walk
  | |- _ => approx_leaf
  end.

(** Each scene function with fuel [n] is continued by itself with fuel
    [m]. *)
Definition scenes_approx (n m : nat) : Prop :=
  (∀ r, approx (main_game_loop n r) (main_game_loop m r))
  ∧ (∀ r e, approx (handle_play_again n r e) (handle_play_again m r e))
  ∧ (∀ r, approx (reset_game n r) (reset_game m r))
  ∧ (∀ cb1 cb2 r, approx (cb1 r) (cb2 r) → steady (cb2 r) →
       approx (handle_jump_sequence n cb1 r) (handle_jump_sequence m cb2 r))
  ∧ (∀ r, approx (enter_firewall_path n r) (enter_firewall_path m r))
  ∧ (∀ r, approx (handle_bridge_crossing n r) (handle_bridge_crossing m r))
  ∧ (∀ r, approx (handle_firewall_obstacle n r) (handle_firewall_obstacle m r))
  ∧ (∀ r, approx (firewall_choice_loop n r) (firewall_choice_loop m r))
  ∧ (∀ r, approx (handle_fan_obstacle n r) (handle_fan_obstacle m r))
  ∧ (∀ r, approx (fan_choice_loop n r) (fan_choice_loop m r))
  ∧ (∀ r, approx (enter_core_access n r) (enter_core_access m r))
  ∧ (∀ r, approx (handle_random_event n r) (handle_random_event m r))
  ∧ (∀ r, approx (return_to_core_access n r) (return_to_core_access m r))
  ∧ (∀ r, approx (start_trivia_game n r) (start_trivia_game m r)).

Lemma scenes_approx_O m : scenes_approx 0 m.
Proof.
  destruct (scenes_steady m)
    as (Smain & Splay & Sreset & Sjump & Sfire & Sbridge & Swall
        & Swallloop & Sfan & Sfanloop & Score & Srandom & Sreturn
        & Strivia).
  unfold scenes_approx. split_all; intros; unfold_scene;
    apply approx_out_of_fuel; steady_leaf.
Qed.

Lemma scenes_approx_S n m : scenes_approx n m → scenes_approx (S n) (S m).
Proof.
  intros (Hmain & Hplay & Hreset & Hjump & Hfire & Hbridge & Hwall
          & Hwallloop & Hfan & Hfanloop & Hcore & Hrandom & Hreturn
          & Htrivia).
  destruct (scenes_steady m)
    as (Smain & Splay & Sreset & Sjump & Sfire & Sbridge & Swall
        & Swallloop & Sfan & Sfanloop & Score & Srandom & Sreturn
        & Strivia).
  unfold scenes_approx. split_all; intros; unfold_scene; approx_walk.
Qed.

Lemma scenes_more_fuel n m : (n <= m)%nat → scenes_approx n m.
Proof.
  revert m. induction n as [|n IH]; intros m Hle.
  - apply scenes_approx_O.
  - destruct m as [|m]; [lia|]. apply scenes_approx_S, IH. lia.
Qed.

(** The whole program: a run with more fuel continues the run with less. *)
Lemma program_more_fuel n m : (n <= m)%nat → approx (program n) (program m).
Proof.
  intros Hle. destruct (scenes_more_fuel n m Hle) as (Hmain & _).
  destruct (scenes_steady m) as (Smain & _).
  unfold program. approx_walk.
Qed.

Lemma run_more_fuel n m lines oracle :
  (n <= m)%nat →
  evolved (heap (snd (run n lines oracle))) (trace (snd (run n lines oracle)))
    (snd (run m lines oracle))
  ∧ (fst (run n lines oracle) ≠ OutOfFuel →
     run m lines oracle = run n lines oracle).
Proof.
  intros Hle. unfold run.
  pose proof (program_more_fuel n m Hle (initial_world lines oracle)) as H.
  destruct (program n (initial_world lines oracle)) as [[a|e| |] w1];
    cbn in *; try (rewrite H; split; [apply evolved_refl | done]).
  split; done.
Qed.

(** * The claims *)

(** Worlds to try the scenes on: a session whose score fell to 0 with "n"
    typed, and a fresh session with one line typed and every draw fixed. *)
Definition lost_world : World :=
  mkWorld [mkGameState 0 false] ["n"] (λ _, 0%N) 0 [].

Definition fresh_world (line : string) (draw : N) : World :=
  mkWorld [GameState_init] [line] (λ _, draw) 0 [].

(** ** Game state *)

(** C7: [is_game_over] returns true exactly when the score of the object is
    at most 0, and leaves the world (so the GameState) as it found it; it
    returns true at score 0 and false at score 1. *)
Theorem is_game_over_spec self gs w :
  heap w !! self = Some gs →
  ∃ b, is_game_over self w = (Val b, w)
       ∧ (b = true ↔ score gs ≤ 0)
       ∧ (score gs = 0 → b = true)
       ∧ (score gs = 1 → b = false).
Proof.
  intros Hh. exists (score gs <=? 0).
  unfold is_game_over, bind, load. rewrite Hh. cbn.
  split; [done|]. split; [apply Z.leb_le|].
  split; intros ->; done.
Qed.

Lemma is_game_over_spec_witness :
  ∃ b, is_game_over 0 lost_world = (Val b, lost_world)
       ∧ (b = true ↔ 0 ≤ 0)
       ∧ (0 = 0 → b = true)
       ∧ (0 = 1 → b = false).
Proof.
  apply (is_game_over_spec 0 (mkGameState 0 false) lost_world).
  reflexivity.
Defined.

(** ** Input layer *)







(** ** Trivia *)

Definition cpu_question : string := "What does CPU stand for?".
Definition os_question : string := "Which of these is an OS?".

Lemma lookup_rewarded self gs q rest w :
  heap w !! self = Some gs →
  heap (trivia_rewarded self gs q rest w) !! self
    = Some (mkGameState (score gs + 5) true).
Proof.
  intros Hh. cbn. apply list_lookup_insert_eq. eapply lookup_lt_Some, Hh.
Qed.

Lemma lookup_penalised self gs q rest w :
  heap w !! self = Some gs →
  heap (trivia_penalised self gs q rest w) !! self
    = Some (mkGameState (score gs - 5) (has_fire_armor gs)).
Proof.
  intros Hh. cbn. apply list_lookup_insert_eq. eapply lookup_lt_Some, Hh.
Qed.

Lemma drawn_question_cases w q :
  drawn_question w = Some q →
  (question q = cpu_question ∧ answer q = "a")
  ∨ (question q = os_question ∧ answer q = "b")
  ∨ (question q ≠ cpu_question ∧ question q ≠ os_question ∧ answer q = "a").
Proof.
  intros H. apply list_elem_of_lookup_2 in H. unfold questions in H.
  repeat (apply elem_of_cons in H as [-> | H]).
  - left. done.
  - right. left. done.
  - right. right. done.
  - by apply elem_of_nil in H.
Qed.

(** C4: on a correct answer [start_trivia_game] adds 5 to the score, sets
    [has_fire_armor] and goes on to [return_to_core_access]; for the CPU
    question, "a" typed at score 10 gives score 15 with the armor. *)
Theorem trivia_correct_answer fuel self gs q line rest w :
  heap w !! self = Some gs →
  drawn_question w = Some q →
  stdin w = line :: rest →
  let w' := trivia_rewarded self gs q rest w in
  (lower line = answer q →
     start_trivia_game (S fuel) self w = return_to_core_access fuel self w'
     ∧ heap w' !! self = Some (mkGameState (score gs + 5) true))
  ∧ (question q = cpu_question → lower line = "a" → score gs = 10 →
     start_trivia_game (S fuel) self w = return_to_core_access fuel self w'
     ∧ heap w' !! self = Some (mkGameState 15 true)).
Proof.
  intros Hh Hq Hin. cbv zeta. split.
  - intros Hl. split; [by eapply start_trivia_game_correct|].
    by apply lookup_rewarded.
  - intros Hcpu Hl Hs.
    assert (lower line = answer q) as Hl'.
    { destruct (drawn_question_cases w q Hq) as [[_ ->]|[[Hos _]|(Hne & _)]];
        [done| |done].
      rewrite Hcpu in Hos. discriminate. }
    split; [by eapply start_trivia_game_correct|].
    rewrite (lookup_rewarded _ _ _ _ _ Hh), Hs. done.
Qed.

Lemma trivia_correct_answer_witness :
  start_trivia_game 1 0 (fresh_world "a" 0)
    = return_to_core_access 0 0
        (trivia_rewarded 0 GameState_init
           (mkQuestion cpu_question
              ("A) Central Processing Unit  B) Computer Personal Unit  "
               +:+ "C) Central Peripheral Unit") "a")
           [] (fresh_world "a" 0))
  ∧ heap (trivia_rewarded 0 GameState_init
           (mkQuestion cpu_question
              ("A) Central Processing Unit  B) Computer Personal Unit  "
               +:+ "C) Central Peripheral Unit") "a")
           [] (fresh_world "a" 0)) !! 0%nat
    = Some (mkGameState 15 true).
Proof.
  apply (trivia_correct_answer 0 0 GameState_init _ "a" [] (fresh_world "a" 0));
    reflexivity.
Defined.

(** C2, as the code has it: with score 10, "b" is wrong for the CPU and the
    RAM question, whose answer is "a": the score becomes 5 and
    [has_fire_armor] is left as it was; for the OS question "b" is the
    answer, and the score becomes 15 with the armor. *)
Theorem trivia_answer_b fuel self gs q line rest w :
  heap w !! self = Some gs →
  score gs = 10 →
  drawn_question w = Some q →
  stdin w = line :: rest →
  lower line = "b" →
  (question q ≠ os_question →
     start_trivia_game (S fuel) self w
       = return_to_core_access fuel self (trivia_penalised self gs q rest w)
     ∧ heap (trivia_penalised self gs q rest w) !! self
       = Some (mkGameState 5 (has_fire_armor gs)))
  ∧ (question q = os_question →
     start_trivia_game (S fuel) self w
       = return_to_core_access fuel self (trivia_rewarded self gs q rest w)
     ∧ heap (trivia_rewarded self gs q rest w) !! self
       = Some (mkGameState 15 true)).
Proof.
  intros Hh Hs Hq Hin Hl.
  destruct (drawn_question_cases w q Hq) as [[Hc Ha]|[[Ho Ha]|(Hc & Ho & Ha)]].
  - split; [intros _|intros Hos; rewrite Hc in Hos; discriminate].
    split.
    + eapply start_trivia_game_wrong; try done.
      * rewrite Hl. repeat constructor.
      * rewrite Hl, Ha. done.
    + rewrite (lookup_penalised _ _ _ _ _ Hh), Hs. done.
  - split; [intros Hne; by destruct Hne|intros _].
    split.
    + eapply start_trivia_game_correct; try done. by rewrite Hl, Ha.
    + rewrite (lookup_rewarded _ _ _ _ _ Hh), Hs. done.
  - split; [intros _|intros Hos; by destruct Ho].
    split.
    + eapply start_trivia_game_wrong; try done.
      * rewrite Hl. repeat constructor.
      * rewrite Hl, Ha. done.
    + rewrite (lookup_penalised _ _ _ _ _ Hh), Hs. done.
Qed.

Lemma trivia_answer_b_witness :
  heap (snd (start_trivia_game 1 0 (fresh_world "B" 2))) !! 0%nat
    = Some (mkGameState 5 false).
Proof.
  destruct (trivia_answer_b 0 0 GameState_init
              (mkQuestion "What does RAM stand for?"
                 ("A) Random Access Memory  B) Readily Available Memory  "
                  +:+ "C) Rapid Action Module") "a")
              "B" [] (fresh_world "B" 2)) as [[E _] _];
    [reflexivity.. | discriminate |].
  rewrite E. reflexivity.
Defined.

(** C2 as stated fails: when the OS question is drawn, "b" is the right
    answer, so the score becomes 15 and the armor is given. *)
Lemma trivia_answer_b_right_for_os :
  (question <$> drawn_question (fresh_world "b" 1)) = Some os_question
  ∧ heap (snd (start_trivia_game 1 0 (fresh_world "b" 1)))
    = [mkGameState 15 true]
  ∧ heap (snd (start_trivia_game 1 0 (fresh_world "b" 1)))
    ≠ [mkGameState 5 false].
Proof. repeat split. discriminate. Qed.

(** ** The play-again prompt *)

Definition play_again_options : list string := ["y"; "n"; EmptyString].

Definition intro_events : list event := [
  EPrint "You wake up in a strange, dark place with tangled wires.";
  EPrint "As you wander a bit, you begin to realize you're inside a...";
  EPrint "Computer system."
].

(** What [handle_play_again] has written once its answer is accepted. *)
Definition asked_again (is_ending : bool) (bads : list string) : list event :=
  retries (play_again_prompt is_ending) (error_text None play_again_options) bads
  ++ [EPrompt (play_again_prompt is_ending)].

(** The world in which the new session enters [main_game_loop]. *)
Definition restarted (is_ending : bool) (bads rest : list string) (w : World)
  : World :=
  mkWorld (heap w ++ [GameState_init]) rest (rng w) (draws w)
    (trace w ++ asked_again is_ending bads ++ [EClear] ++ intro_events).


Lemma handle_play_again_accept fuel r is_ending bads good rest w :
  Forall (invalid play_again_options) bads →
  lower good ∈ ["y"; EmptyString] →
  stdin w = bads ++ good :: rest →
  handle_play_again (S fuel) r is_ending w =
    reset_game fuel r
      (mkWorld (heap w) rest (rng w) (draws w)
         (trace w ++ asked_again is_ending bads)).
Proof.
  intros Hb Hg Hin. cbn [handle_play_again].
  assert (lower good ∈ play_again_options) as Hv.
  { unfold play_again_options.
    apply elem_of_cons in Hg as [->|Hg]; [by left|].
    apply list_elem_of_singleton in Hg as ->. right. right. by left. }
  erewrite bind_val by (eapply get_valid_input_accepts; eauto).
  rewrite bool_decide_true by done. reflexivity.
Qed.


(** C5: accepting the play-again prompt with "y" or an empty line, after a
    win or a loss and whatever the old session's object holds, creates a new
    GameState with score 10 and no armor, clears the screen, runs the intro
    and enters the main loop on the new object; the objects of earlier
    sessions are left as they are. *)
Theorem play_again_accept_restarts fuel r is_ending bads good rest w :
  Forall (invalid play_again_options) bads →
  lower good ∈ ["y"; EmptyString] →
  stdin w = bads ++ good :: rest →
  let w' := restarted is_ending bads rest w in
  handle_play_again (S (S fuel)) r is_ending w
    = main_game_loop fuel (length (heap w)) w'
  ∧ heap w' !! length (heap w) = Some (mkGameState 10 false)
  ∧ (∀ x gs, heap w !! x = Some gs → heap w' !! x = Some gs).
Proof.
  intros Hb Hg Hin. cbv zeta. split; [|split].
  - rewrite (handle_play_again_accept _ _ _ _ _ _ _ Hb Hg Hin).
    cbn -[main_game_loop asked_again]. unfold restarted, add_event, set_heap.
    cbn [heap stdin rng draws trace]. rewrite <- !app_assoc. reflexivity.
  - cbn. rewrite lookup_app_r by lia. by rewrite Nat.sub_diag.
  - intros x gs Hx. cbn. by apply lookup_app_l_Some.
Qed.

Lemma play_again_accept_restarts_witness :
  handle_play_again 2 0 true (mkWorld [mkGameState 15 true] ["Y"] (λ _, 0%N) 0 [])
    = main_game_loop 0 1
        (restarted true [] [] (mkWorld [mkGameState 15 true] ["Y"] (λ _, 0%N) 0 []))
  ∧ heap (restarted true [] []
            (mkWorld [mkGameState 15 true] ["Y"] (λ _, 0%N) 0 [])) !! 1%nat
    = Some (mkGameState 10 false).
Proof.
  destruct (play_again_accept_restarts 0 0 true [] "Y" []
              (mkWorld [mkGameState 15 true] ["Y"] (λ _, 0%N) 0 []))
    as (E1 & E2 & _).
  - constructor.
  - left.
  - reflexivity.
  - split; [exact E1 | exact E2].
Defined.



(** ** The fan obstacle *)

(** What [handle_fan_obstacle] writes up to the return to the main area. *)
Definition fan_go_back_events : list event := [
  EPrint "The temperature rises the further you walk...";
  EPrint "A large fan blocks your path!";
  EPrint "Its blades spin dangerously fast.";
  EPrint "Do you want to:";
  EPrint "1. Try to jump through the fan";
  EPrint "2. Go back";
  EPrompt "> ";
  EPrint "You decide to go back to the main area."
].

(** C9: "2" at the fan obstacle hands control to [main_game_loop] on the
    same object, with the heap as it was: no score and no armor flag of any
    GameState is written on the way. *)
Theorem fan_go_back_unchanged fuel r line rest w :
  stdin w = line :: rest →
  lower line = "2" →
  handle_fan_obstacle (S (S fuel)) r w
    = main_game_loop fuel r
        (mkWorld (heap w) rest (rng w) (draws w)
           (trace w ++ fan_go_back_events))
  ∧ Forall non_store fan_go_back_events.
Proof.
  intros Hin Hl. split; [|repeat constructor].
  cbn -[get_valid_input main_game_loop].
  erewrite bind_val; cycle 1.
  { eapply get_valid_input_first; [|exact Hin]. rewrite Hl. right. by left. }
  rewrite Hl. cbn -[main_game_loop]. unfold add_event.
  cbn [heap stdin rng draws trace]. rewrite <- !app_assoc. reflexivity.
Qed.

Lemma fan_go_back_unchanged_witness :
  handle_fan_obstacle 2 0 (fresh_world "2" 0)
    = main_game_loop 0 0
        (mkWorld [GameState_init] [] (λ _, 0%N) 0 fan_go_back_events).
Proof.
  apply (fan_go_back_unchanged 0 0 "2" [] (fresh_world "2" 0)); reflexivity.
Defined.

(** ** The game-over check of the main loop *)

Definition path_events : list event := map EPrint path_lines.

Lemma show_path_choices_eval w :
  show_path_choices w = (Val tt, add_events path_events w).
Proof.
  unfold show_path_choices. cbn. unfold add_event, add_events.
  cbn [heap stdin rng draws trace]. rewrite <- !app_assoc. reflexivity.
Qed.

Lemma main_game_loop_game_over fuel r gs w :
  heap w !! r = Some gs →
  score gs ≤ 0 →
  main_game_loop (S fuel) r w
    = handle_play_again fuel r false (add_events path_events w).
Proof.
  intros Hh Hs. cbn [main_game_loop].
  erewrite bind_val by apply show_path_choices_eval.
  erewrite bind_val; cycle 1.
  { unfold is_game_over, bind, load. cbn. rewrite Hh. reflexivity. }
  apply Z.leb_le in Hs. rewrite Hs. cbn [when].
  apply bind_stops. intros a. apply handle_play_again_never.
Qed.

Lemma handle_play_again_prompts fuel r is_ending w :
  (trace w ++ [EPrompt (play_again_prompt is_ending)])
    `prefix_of` trace (snd (handle_play_again (S fuel) r is_ending w)).
Proof.
  cbn [handle_play_again].
  apply bind_trace_mono; [apply get_valid_input_prompts|].
  intros choice w'. destruct (bool_decide _).
  - apply (scene_trace_mono Restart fuel r w').
  - cbn. by apply prefix_app_r.
Qed.

(** The claim C1 makes of [main_game_loop]: the play-again prompt comes
    with none of the path lines written before it. *)
Definition skips_path_lines (fuel : nat) (r : ref) (w : World) : Prop :=
  ∀ pre post,
    trace (snd (main_game_loop fuel r w))
      = trace w ++ pre ++ EPrompt (play_again_prompt false) :: post →
    ∀ line, line ∈ path_lines → EPrint line ∉ pre.

(** C1 as stated fails: with the score at 0 the three path lines are
    written first, and the play-again prompt comes after them. *)
Lemma game_over_shows_paths_first : ¬ skips_path_lines 2 0 lost_world.
Proof.
  intros H.
  apply (H path_events [EPrint farewell] eq_refl
           "Ahead of you, there are two paths:").
  - by left.
  - by left.
Qed.

(** C1, as the code has it: when the score of the object is at most 0, a
    turn of [main_game_loop] writes the path lines and then is the
    play-again prompt for a lost game: the loop never returns from it, so
    no path choice is asked of or read from the player in that turn. *)
Theorem game_over_at_path_choice fuel r gs w :
  heap w !! r = Some gs →
  score gs ≤ 0 →
  main_game_loop (S (S fuel)) r w
    = handle_play_again (S fuel) r false (add_events path_events w)
  ∧ (trace w ++ path_events ++ [EPrompt (play_again_prompt false)])
      `prefix_of` trace (snd (main_game_loop (S (S fuel)) r w))
  ∧ (∀ a, fst (main_game_loop (S (S fuel)) r w) ≠ Val a).
Proof.
  intros Hh Hs. rewrite (main_game_loop_game_over _ _ _ _ Hh Hs).
  split; [done|]. split.
  - rewrite app_assoc. apply (handle_play_again_prompts fuel r false).
  - intros a. apply handle_play_again_never.
Qed.

Lemma game_over_at_path_choice_witness :
  main_game_loop 2 0 lost_world
    = handle_play_again 1 0 false (add_events path_events lost_world).
Proof.
  apply (game_over_at_path_choice 0 0 (mkGameState 0 false) lost_world).
  - reflexivity.
  - cbn. lia.
Defined.

(** ** The armor flag over a session *)

(** *** Which line answers which prompt *)

Definition is_prompt (e : event) : bool :=
  match e with EPrompt _ => true | _ => false end.

(** How often the trace called [input].  Every call shows its prompt and
    takes the next line, so what was typed at the prompt that follows trace
    [t] is line number [prompts t] of the input, and the lines from there on
    are [drop (prompts t) lines]. *)
Definition prompts (t : list event) : nat := length (List.filter is_prompt t).

(** A step that only talks to the console, the clock or the random source,
    and that took one line of input for each prompt it showed. *)
Definition console_step (w w' : World) : Prop :=
  heap w' = heap w
  ∧ ∃ t, trace w' = trace w ++ t ∧ Forall non_store t
         ∧ stdin w' = drop (prompts t) (stdin w).

Definition console_only {A} (m : M A) : Prop :=
  ∀ w, console_step w (snd (m w)).

Lemma prompts_app t1 t2 : prompts (t1 ++ t2) = (prompts t1 + prompts t2)%nat.
Proof. unfold prompts. by rewrite List.filter_app, length_app. Qed.

Lemma console_io w w' : console_step w w' → io_step w w'.
Proof. intros [Hh (t & Ht & Hns & _)]. split; [done|]. by exists t. Qed.

Lemma console_step_refl w : console_step w w.
Proof. split; [done|]. exists []. by rewrite app_nil_r. Qed.

Lemma console_step_trans w1 w2 w3 :
  console_step w1 w2 → console_step w2 w3 → console_step w1 w3.
Proof.
  intros [H1 (t1 & E1 & F1 & I1)] [H2 (t2 & E2 & F2 & I2)].
  split; [congruence|]. exists (t1 ++ t2).
  rewrite E2, E1, app_assoc. split; [done|]. split; [by apply Forall_app|].
  by rewrite I2, I1, drop_drop, prompts_app.
Qed.

Lemma console_only_ret {A} (a : A) : console_only (ret a).
Proof. intros w. apply console_step_refl. Qed.

Lemma console_only_raise {A} e : console_only (@raise A e).
Proof. intros w. apply console_step_refl. Qed.

Lemma console_only_out_of_fuel {A} : console_only (@out_of_fuel A).
Proof. intros w. apply console_step_refl. Qed.

Lemma console_only_sys_exit {A} : console_only (@sys_exit A).
Proof. intros w. apply console_step_refl. Qed.

Lemma console_only_bind {A B} (m : M A) (k : A → M B) :
  console_only m → (∀ a, console_only (k a)) → console_only (bind m k).
Proof.
  intros Hm Hk w. unfold bind. specialize (Hm w).
  destruct (m w) as [[a|e| |] w']; cbn in *; try done.
  eapply console_step_trans; [exact Hm | apply Hk].
Qed.

Lemma console_only_print line : console_only (print line).
Proof.
  intros w. split; [done|]. exists [EPrint line].
  split; [done|]. split; [by constructor | done].
Qed.

Lemma console_only_type_text text : console_only (type_text text).
Proof. apply console_only_print. Qed.

Lemma console_only_time_sleep ms : console_only (time_sleep ms).
Proof. apply console_only_ret. Qed.

Lemma console_only_clear : console_only os_system_clear.
Proof.
  intros w. split; [done|]. exists [EClear].
  split; [done|]. split; [by constructor | done].
Qed.

Lemma console_only_input prompt : console_only (input prompt).
Proof.
  intros w. unfold input.
  destruct (stdin w) as [|line rest] eqn:Hin; (split; [done|]);
    exists [EPrompt prompt]; cbn; rewrite Hin;
    (split; [done|]); (split; [by constructor | done]).
Qed.

Lemma console_only_random_draw : console_only random_draw.
Proof.
  intros w. split; [done|]. exists []. cbn. by rewrite app_nil_r.
Qed.

Lemma console_only_random_random : console_only random_random.
Proof.
  apply console_only_bind; [apply console_only_random_draw|].
  intros; apply console_only_ret.
Qed.

Lemma console_only_random_choice {A} (seq : list A) :
  console_only (random_choice seq).
Proof.
  apply console_only_bind; [apply console_only_random_draw | intros k].
  destruct (seq !! _); [apply console_only_ret | apply console_only_raise].
Qed.

Lemma console_only_print_pause text : console_only (print_pause text).
Proof.
  apply console_only_bind; [apply console_only_type_text|].
  intros; apply console_only_time_sleep.
Qed.

Lemma console_only_print_lines lines :
  console_only (print_lines_with_pause lines).
Proof.
  induction lines as [|l lines IH]; [apply console_only_ret|]. cbn.
  apply console_only_bind; [apply console_only_type_text | intros _].
  apply console_only_bind; [apply console_only_time_sleep | intros _; exact IH].
Qed.

Lemma console_only_get_valid_input_loop turns prompt valid err :
  console_only (get_valid_input_loop turns prompt valid err).
Proof.
  induction turns as [|turns IH]; [apply console_only_out_of_fuel|].
  cbn -[error_text].
  apply console_only_bind; [apply console_only_input | intros line].
  destruct (bool_decide _); [apply console_only_ret|].
  apply console_only_bind; [apply console_only_print | intros _; exact IH].
Qed.

Lemma console_only_get_valid_input prompt valid err :
  console_only (get_valid_input prompt valid err).
Proof. intros w. apply console_only_get_valid_input_loop. Qed.

Lemma console_only_intro r : console_only (intro r).
Proof.
  apply console_only_bind; [apply console_only_time_sleep | intros _].
  apply console_only_print_lines.
Qed.

Lemma console_only_show_path_choices : console_only show_path_choices.
Proof. apply console_only_print_lines. Qed.

Create HintDb console discriminated.
#[local] Hint Resolve console_only_ret console_only_raise
  console_only_out_of_fuel console_only_sys_exit
  console_only_print console_only_type_text console_only_time_sleep
  console_only_clear console_only_input console_only_random_random
  console_only_random_choice console_only_print_pause
  console_only_print_lines console_only_get_valid_input
  console_only_intro console_only_show_path_choices : console.

Lemma post_console {A} (I : World → Prop) (m : M A) w :
  (∀ w w', console_step w w' → I w → I w') →
  console_only m → I w → post I (λ _ w', console_step w w') (m w).
Proof. intros HI Hm Hw. split; [by eapply HI | intros; apply Hm]. Qed.

Lemma live_console r w w' : console_step w w' → live r w → live r w'.
Proof. intros H. by apply live_io, console_io. Qed.

Lemma unarmored_console r w w' :
  console_step w w' → unarmored r w → unarmored r w'.
Proof. intros H. by apply unarmored_io, console_io. Qed.

(** *** The trivia, whatever is typed *)

Definition abc : list string := ["a"; "b"; "c"].

(** What [start_trivia_game] wrote when its question [q] got a valid
    answer after the lines [bads] were rejected. *)
Definition trivia_asked_until (q : Question) (bads : list string)
  : list event :=
  [EPrint "To claim it, pass a fun trivia question.";
   EPrint (question q); EPrint (options q)]
  ++ retries "> " (error_text None abc) bads ++ [EPrompt "> "].

Lemma drawn_question_some w : ∃ q, drawn_question w = Some q ∧ q ∈ questions.
Proof.
  unfold drawn_question.
  destruct (questions !! _) as [q|] eqn:E.
  - exists q. split; [done|]. by eapply list_elem_of_lookup_2.
  - apply lookup_ge_None in E.
    pose proof (Nat.mod_upper_bound (N.to_nat (rng w (draws w)))
                  (length questions)) as H.
    cbn in *. lia.
Qed.

Lemma start_trivia_game_asks fuel self q bads good rest w :
  drawn_question w = Some q →
  stdin w = bads ++ good :: rest →
  Forall (invalid abc) bads →
  lower good ∈ abc →
  start_trivia_game (S fuel) self w =
    bind (if (lower good =? answer q)%string then
            print_lines_with_pause [
              "Correct! You've earned the fire protection armor.";
              "Now revisit the firewall..."
            ];;
            modify_score self 5;;
            set_has_fire_armor self true
          else
            print_lines_with_pause [
              "Incorrect! The armor stays locked.";
              "The floor splits open!"
            ];;
            modify_score self (-5);;
            ret tt)
      (λ _, return_to_core_access fuel self)
      (mkWorld (heap w) rest (rng w) (S (draws w))
         (trace w ++ trivia_asked_until q bads)).
Proof.
  intros Hq Hin Hb Hg.
  cbn [start_trivia_game].
  erewrite bind_val by reflexivity.
  erewrite bind_val by (apply random_choice_eval; exact Hq).
  erewrite bind_val by reflexivity.
  erewrite bind_val by reflexivity.
  erewrite bind_val
    by (eapply get_valid_input_accepts; [exact Hb | exact Hg | exact Hin]).
  f_equal. unfold trivia_asked_until, abc.
  cbn -[error_text retries]. by rewrite <- !app_assoc.
Qed.

Lemma start_trivia_game_eof fuel self q w :
  drawn_question w = Some q →
  Forall (invalid abc) (stdin w) →
  start_trivia_game (S fuel) self w =
    (Raise EOFError,
     mkWorld (heap w) [] (rng w) (S (draws w))
       (trace w ++ trivia_asked_until q (stdin w))).
Proof.
  intros Hq Hall.
  cbn [start_trivia_game].
  erewrite bind_val by reflexivity.
  erewrite bind_val by (apply random_choice_eval; exact Hq).
  erewrite bind_val by reflexivity.
  erewrite bind_val by reflexivity.
  unfold bind at 1. unfold get_valid_input.
  rewrite get_valid_input_loop_eof by (cbn; done).
  f_equal. unfold trivia_asked_until, abc.
  cbn -[error_text retries]. by rewrite <- !app_assoc.
Qed.

(** *** Every armor write answers a question *)

(** What lies before a write of the armor flag of [x] in a run on [lines]:
    a question [q] of the pool was shown; the lines typed from there on were
    [bads], each rejected, and then [good], which lower-cased is the answer
    of [q]; the reward was written and the score of [x] raised. *)
Definition earned (lines : list string) (x : ref) (t1 : list event) : Prop :=
  ∃ t0 q bads good rest v,
    t1 = t0 ++ trivia_asked_until q bads ++ reward_lines
            ++ [EStore x (WScore v)]
    ∧ q ∈ questions
    ∧ drop (prompts t0) lines = bads ++ good :: rest
    ∧ Forall (invalid abc) bads
    ∧ lower good = answer q.

(** Every write of the armor flag in the trace writes [True] and was
    earned. *)
Definition armor_earned (lines : list string) (t : list event) : Prop :=
  ∀ t1 x b t2,
    t = t1 ++ EStore x (WArmor b) :: t2 → b = true ∧ earned lines x t1.

Lemma armor_earned_app lines t t' :
  armor_earned lines t → Forall non_armor t' → armor_earned lines (t ++ t').
Proof.
  intros Ht Hna t1 x b t2 Heq.
  apply app_eq_app in Heq as [l [[-> Hl]|[-> Hl]]].
  - destruct l as [|e l].
    + cbn in Hl. subst t'. by apply Forall_cons in Hna as [[] _].
    + cbn in Hl. injection Hl as <- _. by apply (Ht t1 x b l).
  - subst t'. apply Forall_app in Hna as [_ Hna].
    by apply Forall_cons in Hna as [[] _].
Qed.

Lemma armor_earned_nil lines : armor_earned lines [].
Proof. intros [|e t1] x b t2 H; discriminate. Qed.

Lemma armor_earned_snoc lines t x :
  armor_earned lines t → earned lines x t →
  armor_earned lines (t ++ [EStore x (WArmor true)]).
Proof.
  intros Ht He t1 y b t2 Heq.
  apply app_eq_app in Heq as [l [[-> Hl]|[-> Hl]]].
  - destruct l as [|e l].
    + cbn in Hl. injection Hl as -> -> ->. rewrite app_nil_r in *. done.
    + cbn in Hl. injection Hl as <- Hl. by apply (Ht t1 y b l).
  - destruct l as [|e [|e' l]]; cbn in Hl; try discriminate.
    injection Hl as <- <- <-. rewrite app_nil_r. done.
Qed.

(** The session invariant with the input in it: what is left on standard
    input is what the prompts so far have not taken, and every armor write
    was earned. *)
Record Heard (lines : list string) (w : World) : Prop := {
  heard_inv : Inv w;
  heard_stdin : stdin w = drop (prompts (trace w)) lines;
  heard_armor : armor_earned lines (trace w)
}.

Lemma Heard_console lines w w' :
  console_step w w' → Heard lines w → Heard lines w'.
Proof.
  intros Hs [HI Hin Ha]. pose proof (console_io _ _ Hs) as Hio.
  destruct Hs as [Hh (t & Ht & Hns & Hdrop)]. split.
  - by eapply Inv_io.
  - by rewrite Hdrop, Hin, drop_drop, Ht, prompts_app.
  - rewrite Ht. apply armor_earned_app; [done|].
    eapply Forall_impl; [exact Hns | apply non_store_non_armor].
Qed.

Lemma Heard_new lines w :
  Heard lines w → post (Heard lines) always (GameState_new w).
Proof.
  intros [HI Hin Ha]. split; [|done]. split; [|done..].
  by apply Inv_new.
Qed.

Lemma retries_non_store prompt msg bads :
  Forall non_store (retries prompt msg bads).
Proof.
  unfold retries. induction bads as [|b bads IH]; [constructor|].
  cbn. by repeat constructor.
Qed.

Lemma prompts_retries prompt msg bads :
  prompts (retries prompt msg bads) = length bads.
Proof.
  unfold retries. induction bads as [|b bads IH]; [done|].
  cbn. unfold prompts in *. cbn. by rewrite IH.
Qed.

Lemma trivia_asked_non_store q bads :
  Forall non_store (trivia_asked_until q bads).
Proof.
  unfold trivia_asked_until. apply Forall_app. split; [by repeat constructor|].
  apply Forall_app. split; [apply retries_non_store | by repeat constructor].
Qed.

(** Asking the question until a valid line comes is a console step. *)
Lemma trivia_asked_console q bads good rest w :
  stdin w = bads ++ good :: rest →
  console_step w
    (mkWorld (heap w) rest (rng w) (S (draws w))
       (trace w ++ trivia_asked_until q bads)).
Proof.
  intros Hin. split; [done|]. exists (trivia_asked_until q bads).
  split; [done|]. split; [apply trivia_asked_non_store|].
  cbn [stdin]. rewrite Hin. unfold trivia_asked_until.
  rewrite !prompts_app, prompts_retries.
  cbn [prompts List.filter is_prompt length].
  replace (0 + (length bads + 1))%nat with (length bads + 1)%nat by lia.
  by rewrite drop_app_add.
Qed.

(** So is asking it until the input ends. *)
Lemma trivia_asked_eof_console q w :
  console_step w
    (mkWorld (heap w) [] (rng w) (S (draws w))
       (trace w ++ trivia_asked_until q (stdin w))).
Proof.
  split; [done|]. exists (trivia_asked_until q (stdin w)).
  split; [done|]. split; [apply trivia_asked_non_store|].
  cbn [stdin]. unfold trivia_asked_until.
  rewrite !prompts_app, prompts_retries.
  cbn [prompts List.filter is_prompt length].
  by rewrite drop_ge by lia.
Qed.

Lemma Heard_right lines self gs q bads good rest w :
  Heard lines w → unarmored self w →
  heap w !! self = Some gs →
  q ∈ questions →
  stdin w = bads ++ good :: rest →
  Forall (invalid abc) bads →
  lower good = answer q →
  post (Heard lines) always
    (bind (print_lines_with_pause [
             "Correct! You've earned the fire protection armor.";
             "Now revisit the firewall..."])
       (λ _, bind (modify_score self 5) (λ _, set_has_fire_armor self true))
       (mkWorld (heap w) rest (rng w) (S (draws w))
          (trace w ++ trivia_asked_until q bads))).
Proof.
  intros Hw Hun Hh Hq Hin Hb Hg.
  pose proof (trivia_asked_console q _ _ _ _ Hin) as Hs.
  set (w1 := mkWorld (heap w) rest (rng w) (S (draws w))
               (trace w ++ trivia_asked_until q bads)) in *.
  pose proof (Heard_console _ _ _ Hs Hw) as [HI1 Hin1 Ha1].
  pose proof (unarmored_console _ _ _ Hs Hun) as Hun1.
  pose proof (Inv_reward self w1 HI1 Hun1) as [HI2 _].
  assert (heap w1 !! self = Some gs) as Hh1 by done.
  rewrite (reward_eval _ _ _ Hh1) in HI2 |- *. cbn [snd] in HI2.
  split; [|done]. cbn [snd]. split; [done| |].
  - cbn [stdin trace]. rewrite Hin1, !prompts_app. cbn. by rewrite !Nat.add_0_r.
  - cbn [trace].
    replace (trace w1 ++ reward_lines
               ++ [EStore self (WScore (score gs + 5));
                   EStore self (WArmor true)])
      with ((trace w ++ trivia_asked_until q bads ++ reward_lines
               ++ [EStore self (WScore (score gs + 5))])
              ++ [EStore self (WArmor true)])
      by (subst w1; cbn [trace]; by rewrite <- !app_assoc).
    destruct Hw as [_ Hin0 Ha0].
    apply armor_earned_snoc.
    + apply armor_earned_app; [done|].
      apply Forall_app. split; [|by repeat constructor].
      eapply Forall_impl; [apply trivia_asked_non_store|].
      apply non_store_non_armor.
    + exists (trace w), q, bads, good, rest, (score gs + 5).
      split; [done|]. split; [done|]. split; [by rewrite <- Hin0|]. done.
Qed.

Lemma Heard_wrong lines self bads good rest q w :
  Heard lines w → unarmored self w →
  stdin w = bads ++ good :: rest →
  post (Heard lines) always
    (bind (print_lines_with_pause [
             "Incorrect! The armor stays locked.";
             "The floor splits open!"])
       (λ _, bind (modify_score self (-5)) (λ _, ret tt))
       (mkWorld (heap w) rest (rng w) (S (draws w))
          (trace w ++ trivia_asked_until q bads))).
Proof.
  intros Hw Hun Hin.
  pose proof (trivia_asked_console q _ _ _ _ Hin) as Hs.
  set (w1 := mkWorld (heap w) rest (rng w) (S (draws w))
               (trace w ++ trivia_asked_until q bads)) in *.
  pose proof (Heard_console _ _ _ Hs Hw) as [HI1 Hin1 Ha1].
  pose proof (unarmored_console _ _ _ Hs Hun) as Hun1.
  pose proof (Inv_penalty self w1 HI1 Hun1) as [HI2 _].
  destruct Hun1 as (gs & Hh1 & _).
  rewrite (penalty_eval _ _ _ Hh1) in HI2 |- *. cbn [snd] in HI2.
  split; [|done]. cbn [snd]. split; [done| |].
  - cbn [stdin trace]. rewrite Hin1, !prompts_app. cbn. by rewrite !Nat.add_0_r.
  - cbn [trace]. apply armor_earned_app; [done|]. by repeat constructor.
Qed.

Ltac console_call :=
  apply post_console;
  [apply Heard_console | solve [auto with console] | assumption].

Ltac leafH :=
  first [ apply post_sys_exit; assumption
        | console_call
        | apply Heard_new; assumption
        | apply post_load; assumption
        | apply post_is_game_over; assumption
        | apply post_get_has_fire_armor; assumption
        | match goal with H : _ |- _ => apply H; solve [trivial] end
        | match goal with
          | H : ∀ cb r, _ → ∀ w, _ |- _ =>
              apply H; [solve [auto] | assumption | trivial]
          end ].

Ltac console_keeping lem H :=
  let Hs := fresh "Hs" in
  eapply post_bind; [console_call | intros ? ? ? Hs];
  apply (lem _ _ _ Hs) in H; clear Hs.

Lemma scenes_heard lines fuel : scenes_keep (Heard lines) live unarmored fuel.
Proof.
  induction fuel as [|fuel IH].
  { unfold scenes_keep. split_all; intros; intros w Hw _;
      by apply post_out_of_fuel. }
  destruct IH as (Hmain & Hplay & Hreset & Hjump & Hfire & Hbridge & Hwall
                  & Hwallloop & Hfan & Hfanloop & Hcore & Hrandom & Hreturn
                  & Htrivia).
  unfold triple, top in *.
  unfold scenes_keep. split_all; intros; unfold triple, top in *;
    intros w Hw Hp.
  all: try solve [unfold_scene; walk leafH].
  - (* main_game_loop *)
    unfold_scene.
    eapply post_bind; [console_call | intros _ w1 Hw1 _].
    eapply post_bind; [by apply post_is_game_over|].
    intros over w2 _ [-> (gs & Hgs & Hover)].
    eapply (post_bind _ _ _ (λ _ w', live r w')).
    { destruct over; cbn [when].
      - tail_call ltac:(apply Hplay; trivial).
      - split; [done|]. intros _ _. exists gs. split; [done|].
        symmetry in Hover. apply Z.leb_gt in Hover. lia. }
    intros _ w3 Hw3 Hlive.
    console_keeping live_console Hlive.
    eapply (post_bind _ _ _ always).
    { destruct (_ =? "1")%string; [tail_call ltac:(apply Hfire; trivial)|].
      destruct (_ =? "2")%string; [|by split].
      tail_call ltac:(apply Hcore; trivial). }
    intros _ w5 Hw5 _. by apply Hmain.
  - (* enter_core_access *)
    unfold_scene.
    console_keeping live_console Hp.
    eapply post_bind; [by apply post_get_has_fire_armor|].
    intros armor w2 _ [-> (gs & Hgs & ->)].
    destruct (has_fire_armor gs) eqn:Harm; [walk leafH|].
    assert (unarmored r w') as Hun.
    { destruct Hp as (gs' & Hgs' & Hpos). exists gs.
      rewrite Hgs in Hgs'. injection Hgs' as <-. done. }
    console_keeping unarmored_console Hun.
    console_keeping unarmored_console Hun.
    destruct (_ =? "y")%string; [by apply Hrandom | walk leafH].
  - (* handle_random_event *)
    unfold_scene.
    console_keeping unarmored_console Hp.
    destruct (_ =? "explosion")%string; [walk leafH|].
    console_keeping unarmored_console Hp.
    by apply Htrivia.
  - (* start_trivia_game: the reward only when the line is the answer *)
    destruct (drawn_question_some w) as (q & Hq & Hqin).
    destruct (first_valid_line abc (stdin w))
      as [(bads & good & rest & Hin & Hb & Hg)|Hall].
    + rewrite (start_trivia_game_asks _ _ _ _ _ _ _ Hq Hin Hb Hg).
      eapply (post_bind _ _ _ always).
      * destruct (lower good =? answer q)%string eqn:E.
        -- apply String.eqb_eq in E. destruct Hp as (gs & Hh & Hpos & Harm).
           eapply (Heard_right _ _ gs); try done. by exists gs.
        -- by eapply Heard_wrong.
      * intros _ w6 Hw6 _. by apply Hreturn.
    + rewrite (start_trivia_game_eof _ _ _ _ Hq Hall).
      split; [|by intros a [=]]. cbn [snd].
      eapply Heard_console; [apply trivia_asked_eof_console | exact Hw].
Qed.

Lemma run_Heard fuel lines oracle :
  Heard lines (snd (run fuel lines oracle)).
Proof.
  destruct (scenes_heard lines fuel) as (Hmain & _).
  unfold run, program. cbn -[main_game_loop].
  apply Hmain; [|done]. split; cbn.
  - split; cbn.
    + apply Forall_singleton. unfold ok. cbn. lia.
    + by intros [|[|x]].
    + apply (armor_only_as_reward_app []); [constructor|]. repeat constructor.
  - done.
  - apply (armor_earned_app lines []); [apply armor_earned_nil|].
    by repeat constructor.
Qed.

(** A player who presses the button and answers the OS question. *)
Definition one_right_answer : list string := ["2"; "y"; "b"].

(** C3: a new GameState has no armor.  In every run of the program, every
    write of the armor flag writes [True] and comes right after the reward
    of a correct trivia answer: a question of the pool was shown, the line
    typed at its last prompt lower-cases to the answer of that question, and
    the score of the same object was raised; each object has its flag
    written at most once, and has the armor exactly when it was written (a
    correct answer does set it).  An object that has the armor at some point
    of a run has it at every later point, and no scene, entered in any
    world, takes the armor from an object that has it. *)
Theorem has_fire_armor_set_once :
  has_fire_armor GameState_init = false
  ∧ (∀ fuel lines oracle,
       let w := snd (run fuel lines oracle) in
       (∀ t1 x b t2,
          trace w = t1 ++ EStore x (WArmor b) :: t2 →
          b = true ∧ earned lines x t1)
       ∧ ∀ x, (armor_writes x (trace w) <= 1)%nat
              ∧ (armor_writes x (trace w) = 1%nat ↔ armor_at x (heap w) = true))
  ∧ armor_writes 0 (trace (snd (run 6 one_right_answer (λ _, 1%N)))) = 1%nat
  ∧ (∀ fuel fuel' lines oracle x,
       (fuel <= fuel')%nat →
       armor_at x (heap (snd (run fuel lines oracle))) = true →
       armor_at x (heap (snd (run fuel' lines oracle))) = true)
  ∧ (∀ s fuel r w x,
       armor_at x (heap w) = true →
       armor_at x (heap (snd (enter s fuel r w))) = true).
Proof.
  split; [done|]. split; [|split; [|split]].
  - intros fuel lines oracle. cbv zeta.
    destruct (run_Heard fuel lines oracle) as [[_ Honce _] _ Hearned].
    split; [exact Hearned|]. intros x. rewrite (Honce x).
    destruct (armor_at x _); split; try lia; done.
  - by vm_compute.
  - intros fuel fuel' lines oracle x Hle.
    apply (run_more_fuel fuel fuel' lines oracle Hle).
  - intros s fuel r w x. apply scene_evolves.
Qed.

(** ** How often the trivia can be lost *)

Definition button_offer : list event := [
  EPrint "You enter the Core Access tunnel.";
  EPrint "It's dark and quiet, but you spot a button...";
  EPrompt "Do you press the button? (Y/N): "
].

Definition is_store (e : event) : bool :=
  match e with EStore _ _ => true | _ => false end.

(** How many times the trace enters the trivia. *)
Definition trivia_starts (t : list event) : nat :=
  length (List.filter
            (λ e, match e with
                  | EPrint l =>
                      (l =? "To claim it, pass a fun trivia question.")%string
                  | _ => false
                  end) t).

(** A player who presses the button, answers "c" and walks back, twice. *)
Definition two_wrong_answers : list string :=
  ["2"; "y"; "c"; "y"; "n"; "2"; "y"; "c"; "y"; "n"].

Lemma enter_core_access_offers fuel r gs w :
  heap w !! r = Some gs →
  has_fire_armor gs = false →
  (trace w ++ button_offer)
    `prefix_of` trace (snd (enter_core_access (S fuel) r w)).
Proof.
  intros Hh Harm. cbn [enter_core_access].
  erewrite bind_val by reflexivity.
  erewrite bind_val; cycle 1.
  { unfold get_has_fire_armor, bind, load. cbn. rewrite Hh. reflexivity. }
  rewrite Harm.
  erewrite bind_val by reflexivity.
  apply bind_trace_mono.
  - etrans; [|apply get_valid_input_prompts]. cbn.
    rewrite <- !app_assoc. done.
  - intros choice w'. destruct (_ =? _)%string.
    + apply (scene_trace_mono RandomEvent).
    + apply bind_trace_mono; [by apply prefix_app_r|].
      intros _ w''. apply (scene_trace_mono FanObstacle).
Qed.

Lemma run_scores fuel lines oracle x gs :
  heap (snd (run fuel lines oracle)) !! x = Some gs → 0 ≤ score gs ≤ 15.
Proof.
  intros Hx. destruct (run_Inv fuel lines oracle) as [Hok _ _].
  pose proof (Forall_lookup_1 _ _ _ _ Hok Hx) as H. unfold ok in H.
  destruct (has_fire_armor gs); lia.
Qed.

(** C10 as stated fails: no run of the program brings the score of any
    object below 0. *)
Lemma score_never_negative :
  ¬ ∃ fuel lines oracle x gs,
      heap (snd (run fuel lines oracle)) !! x = Some gs ∧ score gs < 0.
Proof.
  intros (fuel & lines & oracle & x & gs & Hx & Hneg).
  apply run_scores in Hx. lia.
Qed.

(** C10, as the code has it: [enter_core_access] on an object without the
    armor offers the button, also after an earlier trivia; the trivia can be
    lost twice in one session, 5 points each time; and because every way
    from the trivia back to the button leads through the game-over check
    of [main_game_loop], no score in any run is below 0 or above 15. *)
Theorem trivia_repeats_until_game_over :
  (∀ fuel r gs w,
     heap w !! r = Some gs → has_fire_armor gs = false →
     (trace w ++ button_offer)
       `prefix_of` trace (snd (enter_core_access (S fuel) r w)))
  ∧ (let w := snd (run 12 two_wrong_answers (λ _, 1%N)) in
     heap w = [mkGameState 0 false]
     ∧ trivia_starts (trace w) = 2%nat
     ∧ List.filter is_store (trace w)
       = [EStore 0 (WScore 5); EStore 0 (WScore 0)]
     ∧ last (trace w) = Some (EPrompt (play_again_prompt false)))
  ∧ (∀ fuel lines oracle x gs,
       heap (snd (run fuel lines oracle)) !! x = Some gs →
       0 ≤ score gs ≤ 15).
Proof.
  split; [|split].
  - intros fuel r gs w. apply enter_core_access_offers.
  - vm_compute. repeat split.
  - intros fuel lines oracle x gs. apply run_scores.
Qed.

(** * Presentation and game state on their own *)

(** The world after some console output [t], with [rest] left on standard
    input and [d] draws taken. *)
Definition after (rest : list string) (d : nat) (t : list event) (w : World)
  : World :=
  mkWorld (heap w) rest (rng w) d (trace w ++ t).

Ltac world_eq :=
  unfold after, add_events, add_event, set_heap, set_stdin, set_draws;
  cbn [heap stdin rng draws trace]; rewrite <- ?app_assoc; cbn [app];
  try reflexivity.

Lemma add_events_nil w : add_events [] w = w.
Proof. destruct w. unfold add_events. cbn. by rewrite app_nil_r. Qed.

Lemma add_events_app t1 t2 w :
  add_events t2 (add_events t1 w) = add_events (t1 ++ t2) w.
Proof. unfold add_events. cbn. by rewrite app_assoc. Qed.

Lemma print_lines_eval lines w :
  print_lines_with_pause lines w = (Val tt, add_events (map EPrint lines) w).
Proof.
  revert w. induction lines as [|l lines IH]; intros w.
  - cbn. by rewrite add_events_nil.
  - cbn [print_lines_with_pause map].
    erewrite bind_val by reflexivity.
    erewrite bind_val by reflexivity.
    rewrite IH. f_equal. apply (add_events_app [EPrint l]).
Qed.

(** X1. [print_lines_with_pause] writes its lines in order, each once, and
    nothing else; printing two lists one after the other is printing their
    concatenation, and the empty list changes nothing. *)
Theorem print_lines_with_pause_spec lines lines' w :
  print_lines_with_pause lines w = (Val tt, add_events (map EPrint lines) w)
  ∧ bind (print_lines_with_pause lines) (λ _, print_lines_with_pause lines') w
    = print_lines_with_pause (lines ++ lines') w
  ∧ print_lines_with_pause [] w = (Val tt, w).
Proof.
  split; [apply print_lines_eval|]. split; [|done].
  erewrite bind_val by apply print_lines_eval.
  rewrite !print_lines_eval, add_events_app, map_app. done.
Qed.

Lemma get_has_fire_armor_eval self gs w :
  heap w !! self = Some gs →
  get_has_fire_armor self w = (Val (has_fire_armor gs), w).
Proof.
  intros H. unfold get_has_fire_armor, bind, load. by rewrite H.
Qed.

Lemma is_game_over_eval self gs w :
  heap w !! self = Some gs →
  is_game_over self w = (Val (score gs <=? 0), w).
Proof. intros H. unfold is_game_over, bind, load. by rewrite H. Qed.

Lemma random_random_eval w :
  random_random w
  = (Val (rng w (draws w) mod 2 ^ 53)%N, set_draws (S (draws w)) w).
Proof. reflexivity. Qed.

(** The heap after two calls of [modify_score] on one object. *)
Definition scored_twice (self : ref) (gs : GameState) (a b : Z)
    (h : list GameState) : list GameState :=
  <[self := mkGameState (score gs + a + b) (has_fire_armor gs)]> h.

(** X2. [modify_score] adds its argument to the score and returns the new
    score; two calls add up, in either order, and leave the armor flag and
    every other object alone; adding 5 and taking 5 gives the old score. *)
Theorem modify_score_twice self gs a b w :
  heap w !! self = Some gs →
  let res := bind (modify_score self a) (λ _, modify_score self b) w in
  let res' := bind (modify_score self b) (λ _, modify_score self a) w in
  fst res = Val (score gs + a + b)
  ∧ heap (snd res) = scored_twice self gs a b (heap w)
  ∧ heap (snd res') = heap (snd res)
  ∧ fst res' = fst res
  ∧ (a + b = 0 → heap (snd res) = heap w)
  ∧ trace (snd res)
    = trace w ++ [EStore self (WScore (score gs + a));
                  EStore self (WScore (score gs + a + b))].
Proof.
  intros Hh. cbv zeta.
  assert (∀ a b,
    bind (modify_score self a) (λ _, modify_score self b) w
    = (Val (score gs + a + b),
       mkWorld (scored_twice self gs a b (heap w)) (stdin w) (rng w) (draws w)
         (trace w ++ [EStore self (WScore (score gs + a));
                      EStore self (WScore (score gs + a + b))]))) as E.
  { intros a' b'.
    erewrite bind_val by (apply modify_score_eval; exact Hh).
    erewrite modify_score_eval
      by (cbn; apply list_lookup_insert_eq; eapply lookup_lt_Some, Hh).
    cbn. unfold scored_twice. rewrite list_insert_insert_eq, <- app_assoc.
    reflexivity. }
  rewrite (E a b), (E b a). cbn. unfold scored_twice.
  replace (score gs + b + a) with (score gs + a + b) by lia.
  repeat split; try done.
  intros H0. replace (score gs + a + b) with (score gs) by lia.
  destruct gs. by apply list_insert_id.
Qed.

Lemma modify_score_twice_witness :
  heap (snd (bind (modify_score 0 5) (λ _, modify_score 0 (-5))
               (fresh_world "a" 0)))
  = heap (fresh_world "a" 0).
Proof.
  destruct (modify_score_twice 0 GameState_init 5 (-5) (fresh_world "a" 0))
    as (_ & _ & _ & _ & H & _); [reflexivity|].
  apply H. reflexivity.
Defined.

(** * Input layer: what comes back *)





(** * The scenes one by one *)

Lemma input_eval prompt line rest w :
  stdin w = line :: rest →
  input prompt w = (Val line, after rest (draws w) [EPrompt prompt] w).
Proof. intros H. unfold input. rewrite H. reflexivity. Qed.

(** Evaluating a scene on a world whose next lines are known, one call at
    a time; the world is kept as one record. *)
Ltac flat :=
  unfold after, add_event, add_events, set_draws, set_heap, set_stdin;
  cbn [heap stdin rng draws trace].

Ltac use_lowers :=
  repeat match goal with H : lower _ = _ |- _ => rewrite H end.

Ltac is_option :=
  use_lowers; first [by left | right; by left | right; right; by left].

Ltac scene_step :=
  first
    [ erewrite bind_val by apply print_lines_eval
    | erewrite bind_val by apply show_path_choices_eval
    | erewrite bind_val by (apply get_has_fire_armor_eval; eassumption)
    | erewrite bind_val by (apply is_game_over_eval; eassumption)
    | erewrite bind_val by apply random_random_eval
    | erewrite bind_val
        by (eapply get_valid_input_first; [|reflexivity]; is_option)
    | erewrite bind_val by (eapply input_eval; reflexivity)
    | erewrite bind_val by reflexivity ];
  flat.

Ltac same_world := flat; rewrite <- ?app_assoc; reflexivity.

(** The same when the scene ends by printing a line and returns. *)
Ltac printed :=
  unfold print_pause, type_text, print, emit, time_sleep, bind, ret;
  same_world.

Ltac known_world w :=
  destruct w as [? ? ? ? ?]; cbn [heap stdin rng draws trace] in *; subst.


(** The four letters of the jump word, upper and lower case. *)
Lemma upper_ascii_jump c (u l : ascii) :
  (u, l) ∈ [("J", "j"); ("U", "u"); ("M", "m"); ("P", "p")]%char →
  upper_ascii c = u ↔ lower_ascii c = l.
Proof.
  intros H. repeat (apply elem_of_cons in H as [[= -> ->]|H]);
    [..|by apply elem_of_nil in H];
    destruct c as [[] [] [] [] [] [] [] []]; vm_compute;
    split; intros E; first [reflexivity | discriminate E].
Qed.

Lemma upper_is_JUMP line : upper line = "JUMP" ↔ lower line = "jump".
Proof.
  destruct line as [|c1 [|c2 [|c3 [|c4 [|c5 line]]]]]; cbn;
    try (split; discriminate).
  pose proof (upper_ascii_jump c1 "J" "j") as H1.
  pose proof (upper_ascii_jump c2 "U" "u") as H2.
  pose proof (upper_ascii_jump c3 "M" "m") as H3.
  pose proof (upper_ascii_jump c4 "P" "p") as H4.
  split; intros [= E1 E2 E3 E4];
    [apply H1 in E1; [|repeat constructor];
     apply H2 in E2; [|repeat constructor];
     apply H3 in E3; [|repeat constructor];
     apply H4 in E4; [|repeat constructor] ..];
    by rewrite E1, E2, E3, E4.
Qed.

Definition jump_text : string :=
  "Type " +:+ dquote +:+ "JUMP" +:+ dquote +:+ " to jump to the opposite side".

Definition jump_asked : list event := [EPrint jump_text; EPrompt "> "].

(** X4. [handle_jump_sequence] reads one line: the word "jump" in any mix
    of upper and lower case hands over to the callback, any other line
    (the empty one too, and the word with blanks around it) is a typo and
    leads to the play-again prompt of a lost game; at the end of input the
    call raises [EOFError].  The heap is not touched. *)
Theorem handle_jump_sequence_spec fuel cb r w :
  handle_jump_sequence (S fuel) cb r w =
    match stdin w with
    | [] => (Raise EOFError, after [] (draws w) jump_asked w)
    | line :: rest =>
        if (lower line =? "jump")%string then
          cb r (after rest (draws w)
                  (jump_asked ++ [EPrint "Phew, that was really close!"]) w)
        else
          handle_play_again fuel r false
            (after rest (draws w)
               (jump_asked ++ [EPrint "Looks like you made a typo."]) w)
    end.
Proof.
  destruct w as [h i g d t].
  cbn [handle_jump_sequence heap stdin rng draws trace]. scene_step.
  destruct i as [|line rest].
  - unfold bind, input. cbn. same_world.
  - scene_step. destruct (lower line =? "jump")%string eqn:E.
    + apply String.eqb_eq, upper_is_JUMP in E. rewrite E.
      cbn [String.eqb Ascii.eqb Bool.eqb]. do 2 scene_step. same_world.
    + assert ((upper line =? "JUMP")%string = false) as ->.
      { apply String.eqb_neq. intros H%upper_is_JUMP.
        apply String.eqb_neq in E. done. }
      scene_step. same_world.
Qed.

Definition corridor_back_lines : list event := [
  EPrint "You walk back into the corridor.";
  EPrint "You need to jump high this time; the bridge is broken."
].

Definition corridor_asked : list event := [
  EPrint "You walk into the long, creepy corridor...";
  EPrint "You must cross a bridge with lava underneath.";
  EPrompt "It sounds risky. Will you do it? (Y/N): "
].

Definition bridge_lines : list event := [
  EPrint "You're halfway across the bridge, but something feels off...";
  EPrint "..";
  EPrint "..."
].

(** X5. [enter_firewall_path]: with the armor there is no question, the
    jump comes at once; without it "y" leads onto the bridge and "n" returns
    to the caller with nothing changed but the console.  The bridge leads
    to the jump, behind which the firewall obstacle waits. *)
Theorem enter_firewall_path_spec fuel r gs w :
  heap w !! r = Some gs →
  (has_fire_armor gs = true →
     enter_firewall_path (S fuel) r w
     = handle_jump_sequence fuel (handle_firewall_obstacle fuel) r
         (add_events corridor_back_lines w))
  ∧ (has_fire_armor gs = false → ∀ line rest, stdin w = line :: rest →
       (lower line = "y" →
          enter_firewall_path (S fuel) r w
          = handle_bridge_crossing fuel r
              (after rest (draws w) corridor_asked w))
       ∧ (lower line = "n" →
          enter_firewall_path (S fuel) r w
          = (Val tt,
             after rest (draws w)
               (corridor_asked
                  ++ [EPrint "You decided not to risk it and go back."]) w)))
  ∧ (∀ w0, handle_bridge_crossing (S fuel) r w0
           = handle_jump_sequence fuel (handle_firewall_obstacle fuel) r
               (add_events bridge_lines w0)).
Proof.
  intros Hh. destruct w as [h i g d t].
  cbn [heap stdin rng draws trace] in *. split; [|split].
  - intros Ha. cbn [enter_firewall_path]. scene_step. rewrite Ha.
    scene_step. same_world.
  - intros Ha line rest ->. cbn [enter_firewall_path]. scene_step.
    rewrite Ha. scene_step.
    split; intros Hl; scene_step; rewrite Hl;
      cbn [String.eqb Ascii.eqb Bool.eqb]; [same_world | printed].
  - intros w0. cbn [handle_bridge_crossing]. scene_step. same_world.
Qed.

Lemma enter_firewall_path_spec_witness :
  enter_firewall_path 1 0 (fresh_world "N" 0)
  = (Val tt,
     after [] 0
       (corridor_asked ++ [EPrint "You decided not to risk it and go back."])
       (fresh_world "N" 0)).
Proof.
  destruct (enter_firewall_path_spec 0 0 GameState_init (fresh_world "N" 0))
    as (_ & H & _); [reflexivity|].
  apply (H eq_refl "N" []); reflexivity.
Defined.

Definition wall_armor_lines : list event := [
  EPrint "You make it across the bridge.";
  EPrint "The huge wall of fire blocks your path again, but you're ready.";
  EPrint "You step forward into the fire..";
  EPrint "It was hot, but you survived!";
  EPrint "You've unlocked the 'Wall Of Fire' ending!";
  EPrint farewell
].

Definition wall_asked : list event := [
  EPrint "You make it across the bridge.";
  EPrint "A huge wall of fire is blocking your path.";
  EPrint "The heat is overwhelming—you can't pass through.";
  EPrint "There has to be a way through, right?";
  EPrint "Do you want to:";
  EPrint "1. Risk walking through the fire";
  EPrint "2. Go back";
  EPrompt "> "
].

Definition fire_lines : list event := [
  EPrint "You step into the fire..";
  EPrint "The heat is unbearable."
].

Definition fire_lucky_lines : list event := [
  EPrint "Lucky day! You emerge on the other side,";
  EPrint "smoking but alive!";
  EPrint "You've unlocked the 'Wall Of Fire' ending!";
  EPrint farewell
].

(** The float [random.random()] returns in world [w], times 2^53. *)
Definition next_random (w : World) : N := (rng w (draws w) mod 2 ^ 53)%N.

(** X6. [handle_firewall_obstacle]: with the armor the "Wall Of Fire"
    ending is certain: no question is asked and no random number drawn
    before the play-again prompt of a won game.  Without the armor, "1"
    draws one random number: below 0.5 the same ending is reached,
    otherwise the game is lost; "2" returns to the caller with the heap and
    the random source as they were. *)
Theorem handle_firewall_obstacle_spec fuel r gs w :
  heap w !! r = Some gs →
  (has_fire_armor gs = true →
     handle_firewall_obstacle (S fuel) r w
     = handle_play_again fuel r true (add_events wall_armor_lines w))
  ∧ (has_fire_armor gs = false → ∀ line rest, stdin w = line :: rest →
       (lower line = "1" →
          handle_firewall_obstacle (S (S fuel)) r w
          = if lt_half (next_random w) then
              handle_play_again fuel r true
                (after rest (S (draws w))
                   (wall_asked ++ fire_lines ++ fire_lucky_lines) w)
            else
              handle_play_again fuel r false
                (after rest (S (draws w))
                   (wall_asked ++ fire_lines
                      ++ [EPrint "Within seconds, your body gives in."]) w))
       ∧ (lower line = "2" →
          handle_firewall_obstacle (S (S fuel)) r w
          = (Val tt,
             after rest (draws w)
               (wall_asked ++ [EPrint "You decided to go back."]) w))).
Proof.
  intros Hh. destruct w as [h i g d t].
  cbn [heap stdin rng draws trace] in *. split.
  - intros Ha. cbn [handle_firewall_obstacle]. do 2 scene_step.
    rewrite Ha. do 2 scene_step. same_world.
  - intros Ha line rest ->.
    cbn [handle_firewall_obstacle firewall_choice_loop]. do 2 scene_step.
    rewrite Ha. do 4 scene_step. unfold next_random.
    split; intros Hl; scene_step; rewrite Hl;
      cbn [String.eqb Ascii.eqb Bool.eqb].
    + do 2 scene_step. destruct (lt_half _).
      * do 2 scene_step. same_world.
      * scene_step. same_world.
    + printed.
Qed.

Lemma handle_firewall_obstacle_spec_witness :
  handle_firewall_obstacle 2 0 (fresh_world "2" 0)
  = (Val tt,
     after [] 0 (wall_asked ++ [EPrint "You decided to go back."])
       (fresh_world "2" 0)).
Proof.
  destruct (handle_firewall_obstacle_spec 0 0 GameState_init
              (fresh_world "2" 0)) as (_ & H); [reflexivity|].
  apply (H eq_refl "2" []); reflexivity.
Defined.

Definition fan_asked : list event := [
  EPrint "The temperature rises the further you walk...";
  EPrint "A large fan blocks your path!";
  EPrint "Its blades spin dangerously fast.";
  EPrint "Do you want to:";
  EPrint "1. Try to jump through the fan";
  EPrint "2. Go back";
  EPrompt "> ";
  EPrint "You take a deep breath and prepare to jump...";
  EPrint "This is going to be risky!"
].

Definition fan_lucky_lines : list event := [
  EPrint "Perfect timing! You pass through safely!";
  EPrint "You've unlocked the 'Spinning Blades' ending!";
  EPrint farewell
].

(** X7. [handle_fan_obstacle] on "1" draws one random number: below 0.5
    the "Spinning Blades" ending is reached and the play-again prompt is
    that of a won game, otherwise the game is lost; the armor plays no part
    and the heap is not touched. *)
Theorem handle_fan_obstacle_jump fuel r line rest w :
  stdin w = line :: rest →
  lower line = "1" →
  handle_fan_obstacle (S (S fuel)) r w
  = if lt_half (next_random w) then
      handle_play_again fuel r true
        (after rest (S (draws w)) (fan_asked ++ fan_lucky_lines) w)
    else
      handle_play_again fuel r false
        (after rest (S (draws w))
           (fan_asked ++ [EPrint "The fan's blades were too fast..."]) w).
Proof.
  intros Hin Hl. destruct w as [h i g d t].
  cbn [heap stdin rng draws trace] in *. subst i.
  cbn [handle_fan_obstacle fan_choice_loop]. do 5 scene_step.
  rewrite Hl. cbn [String.eqb Ascii.eqb Bool.eqb]. do 2 scene_step.
  unfold next_random. flat. destruct (lt_half _).
  - do 2 scene_step. same_world.
  - scene_step. same_world.
Qed.

Lemma handle_fan_obstacle_jump_witness :
  handle_fan_obstacle 2 0 (fresh_world "1" 0)
  = handle_play_again 0 0 true
      (after [] 1 (fan_asked ++ fan_lucky_lines) (fresh_world "1" 0)).
Proof.
  apply (handle_fan_obstacle_jump 0 0 "1" [] (fresh_world "1" 0)); reflexivity.
Defined.

Definition core_armor_lines : list event := [
  EPrint "You enter the Core Access tunnel.";
  EPrint "You continue on your way."
].

(** X8. [enter_core_access]: a player with the armor is led straight to
    the fan, the button is not offered and nothing is read; without the
    armor "y" presses the button (the random event follows) and "n" leads
    to the fan.  The heap is not touched. *)
Theorem enter_core_access_spec fuel r gs w :
  heap w !! r = Some gs →
  (has_fire_armor gs = true →
     enter_core_access (S fuel) r w
     = handle_fan_obstacle fuel r (add_events core_armor_lines w))
  ∧ (has_fire_armor gs = false → ∀ line rest, stdin w = line :: rest →
       (lower line = "y" →
          enter_core_access (S fuel) r w
          = handle_random_event fuel r (after rest (draws w) button_offer w))
       ∧ (lower line = "n" →
          enter_core_access (S fuel) r w
          = handle_fan_obstacle fuel r
              (after rest (draws w)
                 (button_offer
                    ++ [EPrint "You don't press the button and continue."])
                 w))).
Proof.
  intros Hh. destruct w as [h i g d t].
  cbn [heap stdin rng draws trace] in *. split.
  - intros Ha. cbn [enter_core_access]. do 2 scene_step. rewrite Ha.
    scene_step. same_world.
  - intros Ha line rest ->. cbn [enter_core_access]. do 2 scene_step.
    rewrite Ha. scene_step.
    split; intros Hl; scene_step; rewrite Hl;
      cbn [String.eqb Ascii.eqb Bool.eqb].
    + same_world.
    + scene_step. same_world.
Qed.

Lemma enter_core_access_spec_witness :
  enter_core_access 1 0 (fresh_world "y" 0)
  = handle_random_event 0 0 (after [] 0 button_offer (fresh_world "y" 0)).
Proof.
  destruct (enter_core_access_spec 0 0 GameState_init (fresh_world "y" 0))
    as (_ & H); [reflexivity|].
  apply (H eq_refl "y" []); reflexivity.
Defined.

Definition explosion_lines : list event := [
  EPrint "You feel the ground shaking heavily...";
  EPrint "What's that sound?";
  EPrint "..";
  EPrint "IT'S AN EXPLOSIO- 💥"
].

Definition door_lines : list event := [
  EPrint "The button opens a hidden door in the wall...";
  EPrint "You step through and find a shining fire protection armor!"
].

(** X9. [handle_random_event] takes one draw and reads nothing: when
    [random.choice] picks the first of its two outcomes the explosion ends
    the game at the play-again prompt of a lost game, when it picks the
    second the door opens on the trivia question.  The heap is not
    touched. *)
Theorem handle_random_event_spec fuel r w :
  handle_random_event (S fuel) r w
  = if decide (N.to_nat (rng w (draws w)) mod 2 = 0)%nat then
      handle_play_again fuel r false
        (after (stdin w) (S (draws w)) explosion_lines w)
    else
      start_trivia_game fuel r (after (stdin w) (S (draws w)) door_lines w).
Proof.
  destruct w as [h i g d t]. cbn [heap stdin rng draws trace].
  cbn [handle_random_event].
  pose proof (Nat.mod_upper_bound (N.to_nat (g d)) 2) as Hlt.
  case_decide as Hd.
  - erewrite bind_val
      by (apply random_choice_eval; cbn [length rng draws]; by rewrite Hd).
    flat. cbn [String.eqb Ascii.eqb Bool.eqb]. scene_step. same_world.
  - assert (N.to_nat (g d) mod 2 = 1)%nat as Hd1 by lia.
    erewrite bind_val
      by (apply random_choice_eval; cbn [length rng draws]; by rewrite Hd1).
    flat. cbn [String.eqb Ascii.eqb Bool.eqb]. scene_step. same_world.
Qed.

Definition back_in_tunnel_lines : list event := [
  EPrint "You're back in the Core Access tunnel.";
  EPrint "You try to locate the button again...";
  EPrint "But it's vanished. You continue on."
].

(** X10. [return_to_core_access] after the trivia: "y" goes to the
    firewall path, "n" to the fan obstacle; the button is not offered here,
    whether the answer was right or wrong. *)
Theorem return_to_core_access_spec fuel r line rest w :
  stdin w = line :: rest →
  let asked := [EPrompt "Go to the firewall corridor? (Y/N): "] in
  (lower line = "y" →
     return_to_core_access (S fuel) r w
     = enter_firewall_path fuel r (after rest (draws w) asked w))
  ∧ (lower line = "n" →
     return_to_core_access (S fuel) r w
     = handle_fan_obstacle fuel r
         (after rest (draws w) (asked ++ back_in_tunnel_lines) w)).
Proof.
  intros Hin. destruct w as [h i g d t].
  cbn [heap stdin rng draws trace] in *. subst i. cbv zeta.
  cbn [return_to_core_access].
  split; intros Hl; scene_step; rewrite Hl;
    cbn [String.eqb Ascii.eqb Bool.eqb].
  - same_world.
  - scene_step. same_world.
Qed.

Lemma return_to_core_access_spec_witness :
  return_to_core_access 1 0 (fresh_world "Y" 0)
  = enter_firewall_path 0 0
      (after [] 0 [EPrompt "Go to the firewall corridor? (Y/N): "]
         (fresh_world "Y" 0)).
Proof.
  destruct (return_to_core_access_spec 0 0 "Y" [] (fresh_world "Y" 0))
    as (H & _); [reflexivity|].
  apply H. reflexivity.
Defined.

(** * Ways through the game *)

Definition path_asked : list event := path_events ++ [EPrompt where_prompt].

(** X11. A turn of [main_game_loop] with a positive score shows the paths
    and asks for one: "1" enters the firewall path and "2" the Core Access
    tunnel, and when that scene returns the next turn of the loop begins on
    the same object. *)
Theorem main_game_loop_turn fuel r gs line rest w :
  heap w !! r = Some gs →
  0 < score gs →
  stdin w = line :: rest →
  (lower line = "1" →
     main_game_loop (S fuel) r w
     = bind (enter_firewall_path fuel r) (λ _, main_game_loop fuel r)
         (after rest (draws w) path_asked w))
  ∧ (lower line = "2" →
     main_game_loop (S fuel) r w
     = bind (enter_core_access fuel r) (λ _, main_game_loop fuel r)
         (after rest (draws w) path_asked w)).
Proof.
  intros Hh Hs Hin.
  assert ((score gs <=? 0) = false) as Hover by (apply Z.leb_gt; lia).
  destruct w as [h i g d t]. cbn [heap stdin rng draws trace] in *. subst i.
  split; intros Hl; cbn [main_game_loop];
    do 2 scene_step; rewrite Hover; cbn [when];
    do 2 scene_step; rewrite Hl; cbn [String.eqb Ascii.eqb Bool.eqb];
    same_world.
Qed.

Lemma main_game_loop_turn_witness :
  main_game_loop 1 0 (fresh_world "2" 0)
  = bind (enter_core_access 0 0) (λ _, main_game_loop 0 0)
      (after [] 0 path_asked (fresh_world "2" 0)).
Proof.
  destruct (main_game_loop_turn 0 0 GameState_init "2" [] (fresh_world "2" 0))
    as (_ & H); [reflexivity | reflexivity | reflexivity |].
  apply H. reflexivity.
Defined.

Definition declined_bridge : list event :=
  path_asked ++ corridor_asked
  ++ [EPrint "You decided not to risk it and go back."].

Definition to_the_wall : list event :=
  path_asked ++ corridor_asked ++ bridge_lines ++ jump_asked
  ++ [EPrint "Phew, that was really close!"].

(** X12. Turning back leads to the paths again with nothing lost: without
    the armor, "1" and then "n" at the bridge, or "1", "y", the jump and
    then "2" at the wall of fire, unwind to the next turn of
    [main_game_loop] on the same object, with the heap and the random
    source as they were. *)
Theorem turning_back_to_the_paths fuel r gs w :
  heap w !! r = Some gs →
  0 < score gs →
  has_fire_armor gs = false →
  (∀ l1 l2 rest,
     stdin w = l1 :: l2 :: rest → lower l1 = "1" → lower l2 = "n" →
     main_game_loop (2 + fuel) r w
     = main_game_loop (1 + fuel) r (after rest (draws w) declined_bridge w))
  ∧ (∀ l1 l2 l3 l4 rest,
     stdin w = l1 :: l2 :: l3 :: l4 :: rest →
     lower l1 = "1" → lower l2 = "y" → lower l3 = "jump" → lower l4 = "2" →
     main_game_loop (5 + fuel) r w
     = main_game_loop (4 + fuel) r
         (after rest (draws w)
            (to_the_wall ++ wall_asked ++ [EPrint "You decided to go back."])
            w)).
Proof.
  intros Hh Hs Ha.
  assert ((score gs <=? 0) = false) as Hover by (apply Z.leb_gt; lia).
  destruct w as [h i g d t]. cbn [heap stdin rng draws trace] in *. split.
  - intros l1 l2 rest -> H1 H2.
    cbn [main_game_loop Nat.add].
    do 2 scene_step. rewrite Hover. cbn [when].
    do 2 scene_step. rewrite H1. cbn [String.eqb Ascii.eqb Bool.eqb].
    erewrite bind_val; [same_world|].
    cbn [enter_firewall_path]. scene_step. rewrite Ha.
    do 2 scene_step. rewrite H2. cbn [String.eqb Ascii.eqb Bool.eqb].
    printed.
  - intros l1 l2 l3 l4 rest -> H1 H2 H3 H4.
    apply upper_is_JUMP in H3.
    cbn [main_game_loop Nat.add].
    do 2 scene_step. rewrite Hover. cbn [when].
    do 2 scene_step. rewrite H1. cbn [String.eqb Ascii.eqb Bool.eqb].
    erewrite bind_val; [same_world|].
    cbn [enter_firewall_path]. scene_step. rewrite Ha.
    do 2 scene_step. rewrite H2. cbn [String.eqb Ascii.eqb Bool.eqb].
    cbn [handle_bridge_crossing]. scene_step.
    cbn [handle_jump_sequence]. do 2 scene_step.
    rewrite H3. cbn [String.eqb Ascii.eqb Bool.eqb]. do 2 scene_step.
    cbn [handle_firewall_obstacle firewall_choice_loop].
    do 2 scene_step. rewrite Ha. do 5 scene_step.
    rewrite H4. cbn [String.eqb Ascii.eqb Bool.eqb].
    printed.
Qed.

Lemma turning_back_to_the_paths_witness :
  main_game_loop 2 0 (mkWorld [GameState_init] ["1"; "N"] (λ _, 0%N) 0 [])
  = main_game_loop 1 0
      (after [] 0 declined_bridge
         (mkWorld [GameState_init] ["1"; "N"] (λ _, 0%N) 0 [])).
Proof.
  destruct (turning_back_to_the_paths 0 0 GameState_init
              (mkWorld [GameState_init] ["1"; "N"] (λ _, 0%N) 0 []))
    as (H & _); [reflexivity..|].
  apply (H "1" "N" []); reflexivity.
Defined.

Definition armored_to_the_wall : list event :=
  path_asked ++ corridor_back_lines ++ jump_asked
  ++ [EPrint "Phew, that was really close!"].

(** X13. The "Wall Of Fire" ending from the paths.  With the armor, "1" and
    the jump reach it without any luck: the play-again prompt of a won game
    follows and no random number is drawn.  Without the armor, "1", "y", the
    jump and "1" draw one random number, and the ending is reached exactly
    when it is below 0.5; otherwise the game is lost.  Either way the loop
    that started the turn never gets control back. *)
Theorem wall_of_fire_ending fuel r gs w :
  heap w !! r = Some gs →
  0 < score gs →
  (has_fire_armor gs = true → ∀ l1 l2 rest,
     stdin w = l1 :: l2 :: rest → lower l1 = "1" → lower l2 = "jump" →
     main_game_loop (3 + fuel) r w
     = handle_play_again fuel r true
         (after rest (draws w) (armored_to_the_wall ++ wall_armor_lines) w))
  ∧ (has_fire_armor gs = false → ∀ l1 l2 l3 l4 rest,
     stdin w = l1 :: l2 :: l3 :: l4 :: rest →
     lower l1 = "1" → lower l2 = "y" → lower l3 = "jump" → lower l4 = "1" →
     main_game_loop (5 + fuel) r w
     = if lt_half (next_random w) then
         handle_play_again fuel r true
           (after rest (S (draws w))
              (to_the_wall ++ wall_asked ++ fire_lines ++ fire_lucky_lines) w)
       else
         handle_play_again fuel r false
           (after rest (S (draws w))
              (to_the_wall ++ wall_asked ++ fire_lines
                 ++ [EPrint "Within seconds, your body gives in."]) w)).
Proof.
  intros Hh Hs.
  assert ((score gs <=? 0) = false) as Hover by (apply Z.leb_gt; lia).
  destruct w as [h i g d t]. cbn [heap stdin rng draws trace] in *. split.
  - intros Ha l1 l2 rest -> H1 H2. apply upper_is_JUMP in H2.
    cbn [main_game_loop Nat.add].
    do 2 scene_step. rewrite Hover. cbn [when].
    do 2 scene_step. rewrite H1. cbn [String.eqb Ascii.eqb Bool.eqb].
    cbn [enter_firewall_path handle_jump_sequence handle_firewall_obstacle].
    rewrite bind_stops.
    + scene_step. rewrite Ha. do 3 scene_step. rewrite H2.
      cbn [String.eqb Ascii.eqb Bool.eqb]. do 4 scene_step. rewrite Ha.
      do 2 scene_step. same_world.
    + intros a. scene_step. rewrite Ha. do 3 scene_step. rewrite H2.
      cbn [String.eqb Ascii.eqb Bool.eqb]. do 4 scene_step. rewrite Ha.
      do 2 scene_step. apply handle_play_again_never.
  - intros Ha l1 l2 l3 l4 rest -> H1 H2 H3 H4. apply upper_is_JUMP in H3.
    unfold next_random. flat.
    cbn [main_game_loop Nat.add].
    do 2 scene_step. rewrite Hover. cbn [when].
    do 2 scene_step. rewrite H1. cbn [String.eqb Ascii.eqb Bool.eqb].
    cbn [enter_firewall_path handle_bridge_crossing handle_jump_sequence
         handle_firewall_obstacle firewall_choice_loop].
    rewrite bind_stops.
    + scene_step. rewrite Ha. do 2 scene_step. rewrite H2.
      cbn [String.eqb Ascii.eqb Bool.eqb]. do 3 scene_step. rewrite H3.
      cbn [String.eqb Ascii.eqb Bool.eqb]. do 4 scene_step. rewrite Ha.
      do 5 scene_step. rewrite H4. cbn [String.eqb Ascii.eqb Bool.eqb].
      do 2 scene_step. destruct (lt_half _).
      * do 2 scene_step. same_world.
      * scene_step. same_world.
    + intros a. scene_step. rewrite Ha. do 2 scene_step. rewrite H2.
      cbn [String.eqb Ascii.eqb Bool.eqb]. do 3 scene_step. rewrite H3.
      cbn [String.eqb Ascii.eqb Bool.eqb]. do 4 scene_step. rewrite Ha.
      do 5 scene_step. rewrite H4. cbn [String.eqb Ascii.eqb Bool.eqb].
      do 2 scene_step. destruct (lt_half _).
      * do 2 scene_step. apply handle_play_again_never.
      * scene_step. apply handle_play_again_never.
Qed.

Lemma wall_of_fire_ending_witness :
  main_game_loop 3 0
    (mkWorld [mkGameState 15 true] ["1"; "Jump"] (λ _, 0%N) 0 [])
  = handle_play_again 0 0 true
      (after [] 0 (armored_to_the_wall ++ wall_armor_lines)
         (mkWorld [mkGameState 15 true] ["1"; "Jump"] (λ _, 0%N) 0 [])).
Proof.
  destruct (wall_of_fire_ending 0 0 (mkGameState 15 true)
              (mkWorld [mkGameState 15 true] ["1"; "Jump"] (λ _, 0%N) 0 []))
    as (H & _); [reflexivity | reflexivity |].
  apply (H eq_refl "1" "Jump" []); reflexivity.
Defined.

(** * How a run ends *)

(** What a finished call may have done: returned, exited with status 0
    right after the farewell, or met the end of input at a prompt.  When
    [strict] is false the call may also be out of fuel, that is, still
    running. *)
Definition ended {A} (strict : bool) (Q : A → World → Prop)
    (res : outcome A * World) : Prop :=
  match fst res with
  | Val a => Q a (snd res)
  | Raise (SystemExit code) =>
      code = 0 ∧ last (trace (snd res)) = Some (EPrint farewell)
  | Raise EOFError =>
      stdin (snd res) = [] ∧ ∃ p, last (trace (snd res)) = Some (EPrompt p)
  | Raise IndexError => False
  | OutOfFuel => strict = false
  | Dangling => False
  end.

(** From [w] to [w'] at least [k] lines were read and no object was lost. *)
Definition moved (k : nat) (w w' : World) : Prop :=
  (length (stdin w') + k <= length (stdin w))%nat
  ∧ (length (heap w) <= length (heap w'))%nat.

Lemma ended_bind {A B} b (m : M A) (k : A → M B) Q1 Q w :
  ended b Q1 (m w) →
  (∀ a w', Q1 a w' → ended b Q (k a w')) →
  ended b Q (bind m k w).
Proof.
  unfold ended, bind. intros Hm Hk.
  destruct (m w) as [[a|[c| |]| |] w']; cbn in *; try done.
  by apply Hk.
Qed.

Lemma ended_weaken {A} b (Q1 Q : A → World → Prop) res :
  ended b Q1 res → (∀ a, Q1 a (snd res) → Q a (snd res)) → ended b Q res.
Proof.
  unfold ended. intros H HQ. destruct (fst res) as [a|[c| |]| |]; try done.
  by apply HQ.
Qed.

Lemma ended_ret {A} b (a : A) w : ended b (λ _, moved 0 w) (ret a w).
Proof. cbn. unfold moved. lia. Qed.

(** Console output and the clock always return. *)
Lemma ended_io {A} b (m : M A) w :
  io_only m → (∀ w0, ∃ a, fst (m w0) = Val a) →
  (∀ w0, stdin (snd (m w0)) = stdin w0) →
  ended b (λ _, moved 0 w) (m w).
Proof.
  intros Hio Hval Hin. unfold ended. destruct (Hval w) as [a ->].
  destruct (Hio w) as [Hh _]. unfold moved. rewrite Hin, Hh. lia.
Qed.

Lemma ended_print_lines b lines w :
  ended b (λ _, moved 0 w) (print_lines_with_pause lines w).
Proof. rewrite print_lines_eval. cbn. unfold moved. cbn. lia. Qed.

Lemma ended_print_pause b text w :
  ended b (λ _, moved 0 w) (print_pause text w).
Proof. cbn. unfold moved. cbn. lia. Qed.

Lemma ended_print b text w : ended b (λ _, moved 0 w) (print text w).
Proof. cbn. unfold moved. cbn. lia. Qed.

Lemma ended_type_text b text w : ended b (λ _, moved 0 w) (type_text text w).
Proof. apply ended_print. Qed.

Lemma ended_time_sleep b ms w : ended b (λ _, moved 0 w) (time_sleep ms w).
Proof. apply ended_ret. Qed.

Lemma ended_clear b w : ended b (λ _, moved 0 w) (os_system_clear w).
Proof. cbn. unfold moved. cbn. lia. Qed.

Lemma ended_intro b r w : ended b (λ _, moved 0 w) (intro r w).
Proof.
  unfold intro. erewrite bind_val by reflexivity. apply ended_print_lines.
Qed.

Lemma ended_show_path_choices b w :
  ended b (λ _, moved 0 w) (show_path_choices w).
Proof. apply ended_print_lines. Qed.

Lemma ended_random_random b w : ended b (λ _, moved 0 w) (random_random w).
Proof. cbn. unfold moved. cbn. lia. Qed.

(** [random.choice] on a sequence that is not empty never raises. *)
Lemma ended_random_choice {A} b (seq : list A) w :
  seq ≠ [] → ended b (λ _, moved 0 w) (random_choice seq w).
Proof.
  intros Hne. unfold random_choice, bind, random_draw. cbn.
  destruct (seq !! _) as [x|] eqn:E.
  - cbn. unfold moved. cbn. lia.
  - apply lookup_ge_None in E.
    assert (length seq ≠ 0)%nat as Hlen by (by destruct seq).
    pose proof (Nat.mod_upper_bound (N.to_nat (rng w (draws w))) _ Hlen).
    lia.
Qed.

Lemma last_snoc_event (t : list event) e : last (t ++ [e]) = Some e.
Proof. apply last_snoc. Qed.

Lemma ended_input b prompt w : ended b (λ _, moved 1 w) (input prompt w).
Proof.
  unfold ended, input. destruct (stdin w) as [|line rest] eqn:Hin; cbn.
  - split; [done|]. exists prompt. apply last_snoc.
  - unfold moved. cbn. rewrite Hin. cbn. lia.
Qed.

Lemma ended_get_valid_input b prompt valid err w :
  ended b (λ _, moved 1 w) (get_valid_input prompt valid err w).
Proof.
  unfold ended.
  destruct (first_valid_line valid (stdin w))
    as [(bads & good & rest & Hin & Hb & Hg)|Hall].
  - rewrite (get_valid_input_accepts _ _ _ _ _ _ _ Hb Hg Hin).
    cbn -[error_text]. unfold moved. cbn -[error_text].
    rewrite Hin, length_app. cbn. lia.
  - unfold get_valid_input. rewrite get_valid_input_loop_eof by done.
    cbn -[error_text]. split; [done|]. exists prompt.
    rewrite !app_assoc. apply last_snoc.
Qed.

Lemma ended_load b (self : ref) w :
  (self < length (heap w))%nat → ended b (λ _, moved 0 w) (load self w).
Proof.
  intros Hv. unfold ended, load.
  destruct (heap w !! self) as [gs|] eqn:E; cbn.
  - unfold moved. lia.
  - apply lookup_ge_None in E. lia.
Qed.

Lemma ended_is_game_over b (self : ref) w :
  (self < length (heap w))%nat →
  ended b (λ _, moved 0 w) (is_game_over self w).
Proof.
  intros Hv. unfold is_game_over.
  eapply ended_bind; [by apply ended_load|]. intros gs w' Hm. cbn. done.
Qed.

Lemma ended_get_has_fire_armor b (self : ref) w :
  (self < length (heap w))%nat →
  ended b (λ _, moved 0 w) (get_has_fire_armor self w).
Proof.
  intros Hv. unfold get_has_fire_armor.
  eapply ended_bind; [by apply ended_load|]. intros gs w' Hm. cbn. done.
Qed.

Lemma ended_store b (self : ref) wr w :
  (self < length (heap w))%nat → ended b (λ _, moved 0 w) (store self wr w).
Proof.
  intros Hv. unfold ended, store.
  destruct (heap w !! self) as [gs|] eqn:E; cbn.
  - unfold moved. cbn. rewrite length_insert. lia.
  - apply lookup_ge_None in E. lia.
Qed.

Lemma ended_modify_score b (self : ref) amount w :
  (self < length (heap w))%nat →
  ended b (λ _, moved 0 w) (modify_score self amount w).
Proof.
  intros Hv. unfold modify_score.
  eapply ended_bind; [by apply ended_load|]. intros gs w1 [H1 H1'].
  eapply ended_bind; [apply ended_store; lia|]. intros _ w2 [H2 H2'].
  eapply ended_bind; [apply ended_load; lia|]. intros gs' w3 [H3 H3'].
  cbn. unfold moved. lia.
Qed.

Lemma ended_set_has_fire_armor b (self : ref) value w :
  (self < length (heap w))%nat →
  ended b (λ _, moved 0 w) (set_has_fire_armor self value w).
Proof. apply ended_store. Qed.

Lemma ended_new b w :
  ended b (λ r w', (r < length (heap w'))%nat ∧ moved 0 w w')
    (GameState_new w).
Proof. cbn. unfold moved. cbn. rewrite length_app. cbn. lia. Qed.

(** The one place where the process exits. *)
Lemma ended_farewell_exit {A} b (Q : A → World → Prop) w :
  ended b Q (bind (type_text farewell) (λ _, sys_exit) w).
Proof. cbn. split; [done|]. apply last_snoc. Qed.

(** What a scene needs to end: its object, and, when running out of fuel
    is not accepted, fuel for three calls per line still to be read and [c]
    more. *)
Definition ready (strict : bool) (fuel c : nat) (r : ref) (w : World) : Prop :=
  (r < length (heap w))%nat
  ∧ (strict = true → (3 * length (stdin w) + c <= fuel)%nat).

Definition scenes_end (b : bool) (fuel : nat) : Prop :=
  (∀ r w, ready b fuel 2 r w →
     ended b (λ _, moved 0 w) (main_game_loop fuel r w))
  ∧ (∀ r e w, ready b fuel 1 r w →
     ended b (λ _, moved 0 w) (handle_play_again fuel r e w))
  ∧ (∀ r w, ready b fuel 3 r w →
     ended b (λ _, moved 0 w) (reset_game fuel r w))
  ∧ (∀ cb r,
     (∀ w, ready b fuel 2 r w → ended b (λ _, moved 0 w) (cb r w)) →
     ∀ w, ready b fuel 1 r w →
     ended b (λ _, moved 0 w) (handle_jump_sequence fuel cb r w))
  ∧ (∀ r w, ready b fuel 2 r w →
     ended b (λ _, moved 0 w) (enter_firewall_path fuel r w))
  ∧ (∀ r w, ready b fuel 2 r w →
     ended b (λ _, moved 0 w) (handle_bridge_crossing fuel r w))
  ∧ (∀ r w, ready b fuel 2 r w →
     ended b (λ _, moved 0 w) (handle_firewall_obstacle fuel r w))
  ∧ (∀ r w, ready b fuel 1 r w →
     ended b (λ _, moved 0 w) (firewall_choice_loop fuel r w))
  ∧ (∀ r w, ready b fuel 2 r w →
     ended b (λ _, moved 0 w) (handle_fan_obstacle fuel r w))
  ∧ (∀ r w, ready b fuel 1 r w →
     ended b (λ _, moved 0 w) (fan_choice_loop fuel r w))
  ∧ (∀ r w, ready b fuel 3 r w →
     ended b (λ _, moved 0 w) (enter_core_access fuel r w))
  ∧ (∀ r w, ready b fuel 2 r w →
     ended b (λ _, moved 0 w) (handle_random_event fuel r w))
  ∧ (∀ r w, ready b fuel 1 r w →
     ended b (λ _, moved 0 w) (return_to_core_access fuel r w))
  ∧ (∀ r w, ready b fuel 1 r w →
     ended b (λ _, moved 0 w) (start_trivia_game fuel r w)).

Ltac arith :=
  unfold ready, moved in *; cbn [snd] in *;
  first [ lia | split; [lia | intros ?; first [discriminate | lia]] ].

Ltac end_leaf :=
  lazymatch goal with
  | |- ended _ _ (print_lines_with_pause _ _) => apply ended_print_lines
  | |- ended _ _ (print_pause _ _) => apply ended_print_pause
  | |- ended _ _ (print _ _) => apply ended_print
  | |- ended _ _ (type_text _ _) => apply ended_type_text
  | |- ended _ _ (time_sleep _ _) => apply ended_time_sleep
  | |- ended _ _ (os_system_clear _) => apply ended_clear
  | |- ended _ _ (intro _ _) => apply ended_intro
  | |- ended _ _ (show_path_choices _) => apply ended_show_path_choices
  | |- ended _ _ (random_random _) => apply ended_random_random
  | |- ended _ _ (random_choice _ _) => apply ended_random_choice; discriminate
  | |- ended _ _ (input _ _) => apply ended_input
  | |- ended _ _ (get_valid_input _ _ _ _) => apply ended_get_valid_input
  | |- ended _ _ (is_game_over _ _) => apply ended_is_game_over; arith
  | |- ended _ _ (get_has_fire_armor _ _) =>
      apply ended_get_has_fire_armor; arith
  | |- ended _ _ (modify_score _ _ _) => apply ended_modify_score; arith
  | |- ended _ _ (set_has_fire_armor _ _ _) =>
      apply ended_set_has_fire_armor; arith
  | |- ended _ _ (GameState_new _) => apply ended_new
  | |- ended _ _ (handle_jump_sequence _ _ _ _) =>
      match goal with
      | H : ∀ cb r, _ → ∀ w, _ → ended _ _ (handle_jump_sequence _ cb r w),
        H' : ∀ r w, _ → ended _ _ (handle_firewall_obstacle _ r w) |- _ =>
          apply H; [intros ? ?; apply H'; assumption | arith]
      end
  | |- _ => match goal with H : _ |- _ => apply H; solve [arith] end
  end.

Ltac end_walk :=
  lazymatch goal with
  | |- ended _ _ (bind (type_text farewell) (λ _, sys_exit) _) =>
      apply ended_farewell_exit
  | |- ended ?b _ (bind (when _ _) _ ?w) =>
      eapply (ended_bind b _ _ (λ _ w', moved 0 w w'));
      [|intros ? ? ?]; end_walk
  | |- ended ?b _ (bind (if _ then _ else _) _ ?w) =>
      eapply (ended_bind b _ _ (λ _ w', moved 0 w w'));
      [|intros ? ? ?]; end_walk
  | |- ended _ _ (bind _ _ _) =>
      eapply ended_bind; [end_leaf | intros ? ? ?; end_walk]
  | |- ended _ _ ((if ?c then _ else _) _) => destruct c; end_walk
  | |- ended _ _ (when ?c _ _) => destruct c; cbn [when]; end_walk
  | |- ended _ _ (ret _ _) =>
      eapply ended_weaken; [apply ended_ret | intros ? ?; arith]
  | |- _ => eapply ended_weaken; [end_leaf | intros ? ?; arith]
  end.

Lemma scenes_end_sound b fuel : scenes_end b fuel.
Proof.
  destruct b.
  all: induction fuel as [|fuel IH].
  all: try (unfold scenes_end; split_all; intros; unfold_scene;
            unfold ended; cbn; first [reflexivity | arith]).
  all: destruct IH as (Hmain & Hplay & Hreset & Hjump & Hfire & Hbridge
                       & Hwall & Hwallloop & Hfan & Hfanloop & Hcore
                       & Hrandom & Hreturn & Htrivia).
  all: unfold scenes_end; split_all; intros;
    match goal with Hr : ready _ _ _ _ _ |- _ => destruct Hr as [Hv Hb] end;
    try specialize (Hb eq_refl); unfold_scene; end_walk.
Qed.

(** The world in which the program enters its main loop. *)
Definition started (lines : list string) (oracle : nat → N) : World :=
  mkWorld [GameState_init] lines oracle 0 (EClear :: EClear :: intro_events).

Lemma run_start fuel lines oracle :
  run fuel lines oracle = main_game_loop fuel 0 (started lines oracle).
Proof. reflexivity. Qed.

(** X14. How a run can end, whatever is typed and drawn.  The main loop
    never returns.  When the process exits through [sys.exit], the status is
    0 and the farewell was the last thing written.  When [input] raises
    [EOFError], standard input is used up and a prompt was the last thing
    written.  [random.choice] never raises [IndexError] and no attribute of
    a missing object is touched.  And the program never goes on without
    reading: a run that has not ended has used less fuel than three calls
    per line of input and two more.  The interpreter's limit on the depth
    of recursion is outside the model; a run of the interpreter that stops
    at it is a beginning of the run described here. *)
Theorem run_ends_well fuel lines oracle :
  let res := run fuel lines oracle in
  (∀ a, fst res ≠ Val a)
  ∧ (∀ code, fst res = Raise (SystemExit code) →
       code = 0 ∧ last (trace (snd res)) = Some (EPrint farewell))
  ∧ (fst res = Raise EOFError →
       stdin (snd res) = []
       ∧ ∃ prompt, last (trace (snd res)) = Some (EPrompt prompt))
  ∧ fst res ≠ Raise IndexError
  ∧ fst res ≠ Dangling
  ∧ (fst res = OutOfFuel → (fuel < 3 * length lines + 2)%nat).
Proof.
  cbv zeta.
  set (b := bool_decide (3 * length lines + 2 <= fuel)%nat).
  destruct (scenes_end_sound b fuel) as (Hmain & _).
  rewrite run_start. set (w1 := started lines oracle).
  assert (ready b fuel 2 0 w1) as Hr.
  { split; [cbn; lia|]. subst b. intros Hb%bool_decide_eq_true. cbn. lia. }
  pose proof (Hmain 0%nat w1 Hr) as H. unfold ended in H.
  pose proof (main_game_loop_never fuel 0 w1) as Hnever.
  destruct (main_game_loop fuel 0 w1) as [[a|[c| |]| |] w2]; cbn in *.
  - by destruct (Hnever a).
  - split_all; try done. by intros code [= <-].
  - split_all; done.
  - done.
  - split_all; try done. intros _. subst b.
    apply bool_decide_eq_false in H. lia.
  - done.
Qed.

(** * How often a session plays the trivia *)

(** The scenes keep any invariant that console steps, a new GameState, the
    reward and the penalty keep. *)
Section Session.
Context (I : World → Prop).
Hypothesis I_io : ∀ w w', io_step w w' → I w → I w'.
Hypothesis I_new : ∀ w, I w → post I always (GameState_new w).
Hypothesis I_reward : ∀ self w,
  I w → unarmored self w →
  post I always
    (bind (print_lines_with_pause [
             "Correct! You've earned the fire protection armor.";
             "Now revisit the firewall..."])
       (λ _, bind (modify_score self 5) (λ _, set_has_fire_armor self true))
       w).
Hypothesis I_penalty : ∀ self w,
  I w → unarmored self w →
  post I always
    (bind (print_lines_with_pause [
             "Incorrect! The armor stays locked.";
             "The floor splits open!"])
       (λ _, bind (modify_score self (-5)) (λ _, ret tt)) w).



End Session.















(** * Whose object a scene writes *)

(** World [w] lies after heap [h0] with every object of [h0] other than
    [r] as it was. *)
Record framed (r : ref) (h0 : list GameState) (w : World) : Prop := {
  fr_len : (length h0 <= length (heap w))%nat;
  fr_same : ∀ x : ref, x ≠ r → (x < length h0)%nat → heap w !! x = h0 !! x
}.

(** A reference a scene may write: [r] itself or an object younger than
    [h0]. *)
Definition own (r : ref) (h0 : list GameState) (r1 : ref) : Prop :=
  r1 = r ∨ (length h0 <= r1)%nat.

Definition scenes_framed (r : ref) (h0 : list GameState) (fuel : nat) : Prop :=
  let I := framed r h0 in
  (∀ r1, own r h0 r1 → triple I top (main_game_loop fuel r1) always)
  ∧ (∀ r1 e, own r h0 r1 → triple I top (handle_play_again fuel r1 e) always)
  ∧ (∀ r1, own r h0 r1 → triple I top (reset_game fuel r1) always)
  ∧ (∀ cb r1, own r h0 r1 → triple I top (cb r1) always →
              triple I top (handle_jump_sequence fuel cb r1) always)
  ∧ (∀ r1, own r h0 r1 → triple I top (enter_firewall_path fuel r1) always)
  ∧ (∀ r1, own r h0 r1 → triple I top (handle_bridge_crossing fuel r1) always)
  ∧ (∀ r1, own r h0 r1 →
           triple I top (handle_firewall_obstacle fuel r1) always)
  ∧ (∀ r1, own r h0 r1 → triple I top (firewall_choice_loop fuel r1) always)
  ∧ (∀ r1, own r h0 r1 → triple I top (handle_fan_obstacle fuel r1) always)
  ∧ (∀ r1, own r h0 r1 → triple I top (fan_choice_loop fuel r1) always)
  ∧ (∀ r1, own r h0 r1 → triple I top (enter_core_access fuel r1) always)
  ∧ (∀ r1, own r h0 r1 → triple I top (handle_random_event fuel r1) always)
  ∧ (∀ r1, own r h0 r1 → triple I top (return_to_core_access fuel r1) always)
  ∧ (∀ r1, own r h0 r1 → triple I top (start_trivia_game fuel r1) always).

Lemma framed_refl r w : framed r (heap w) w.
Proof. split; done. Qed.

Lemma framed_io r h0 w w' : io_step w w' → framed r h0 w → framed r h0 w'.
Proof. intros [Hh _] [H1 H2]. split; rewrite Hh; done. Qed.

Lemma framed_new r h0 w :
  framed r h0 w → post (framed r h0) (λ r1 _, own r h0 r1) (GameState_new w).
Proof.
  intros [H1 H2]. split; cbn.
  - split; cbn.
    + rewrite length_app. lia.
    + intros x Hx Hlt. rewrite lookup_app_l by lia. by apply H2.
  - intros r1 [= <-]. right. done.
Qed.

Lemma framed_store r h0 (r1 : ref) wr w :
  own r h0 r1 → framed r h0 w → post (framed r h0) always (store r1 wr w).
Proof.
  intros Hown [H1 H2]. unfold store.
  destruct (heap w !! r1) as [gs|] eqn:E; (split; [|done]); [|done].
  cbn. split; cbn.
  - by rewrite length_insert.
  - intros x Hx Hlt. rewrite list_lookup_insert_ne; [by apply H2|].
    destruct Hown as [->|Hge]; [done | lia].
Qed.

Lemma framed_modify_score r h0 (r1 : ref) amount w :
  own r h0 r1 → framed r h0 w →
  post (framed r h0) always (modify_score r1 amount w).
Proof.
  intros Hown H. unfold modify_score.
  eapply post_bind; [by apply post_load|]. intros gs w1 _ [-> _].
  eapply post_bind; [by apply framed_store|]. intros _ w2 H2 _.
  eapply post_bind; [by apply post_load|]. intros gs' w3 _ [-> _].
  split; done.
Qed.

Lemma framed_set_armor r h0 (r1 : ref) value w :
  own r h0 r1 → framed r h0 w →
  post (framed r h0) always (set_has_fire_armor r1 value w).
Proof. apply framed_store. Qed.

Ltac leafF Hio :=
  first [ apply post_sys_exit; assumption
        | io_call Hio
        | apply framed_new; assumption
        | apply framed_modify_score; assumption
        | apply framed_set_armor; assumption
        | apply post_load; assumption
        | apply post_is_game_over; assumption
        | apply post_get_has_fire_armor; assumption
        | match goal with H : _ |- _ => apply H; solve [trivial] end
        | match goal with
          | H : ∀ cb r1, _ → _ → ∀ w, _ |- _ =>
              apply H; [assumption | solve [auto] | assumption | trivial]
          end ].

Lemma scenes_frame r h0 fuel : scenes_framed r h0 fuel.
Proof.
  induction fuel as [|fuel IH].
  { unfold scenes_framed. cbv zeta. split_all; intros; intros w Hw _;
      by apply post_out_of_fuel. }
  unfold scenes_framed in IH. cbv zeta in IH.
  destruct IH as (Hmain & Hplay & Hreset & Hjump & Hfire & Hbridge & Hwall
                  & Hwallloop & Hfan & Hfanloop & Hcore & Hrandom & Hreturn
                  & Htrivia).
  unfold triple, top in *.
  pose proof (framed_io r h0) as Hio.
  unfold scenes_framed. cbv zeta.
  split_all; intros; unfold triple, top in *;
    intros w Hw _; unfold_scene; walk ltac:(leafF Hio).
Qed.

Lemma scene_leaves_others s fuel (r x : ref) w :
  x ≠ r → (x < length (heap w))%nat →
  heap (snd (enter s fuel r w)) !! x = heap w !! x.
Proof.
  intros Hx Hlt.
  destruct (scenes_frame r (heap w) fuel)
    as (Hmain & Hplay & Hreset & Hjump & Hfire & Hbridge & Hwall
        & Hwallloop & Hfan & Hfanloop & Hcore & Hrandom & Hreturn
        & Htrivia).
  pose proof (framed_refl r w) as Hw.
  assert (own r (heap w) r) as Hown by (by left).
  assert (framed r (heap w) (snd (enter s fuel r w))) as [_ H].
  { destruct s; cbn [enter];
      try (match goal with
           | H : ∀ r1, own _ _ r1 → triple _ _ _ _ |- _ =>
               apply (H r Hown w Hw Logic.I)
           end).
    - apply (Hjump _ r Hown (Hwall r Hown) w Hw Logic.I).
    - apply (Hplay r is_ending Hown w Hw Logic.I). }
  by apply H.
Qed.

(** X16. A scene writes no GameState but its own and those created after
    it was entered: every other object on the heap is, at every later point
    of the scene, what it was.  A restart does not even write the object it
    is given: [reset_game] leaves every object there was untouched, the one
    of the finished session too. *)
Theorem scenes_write_their_own_object s fuel (r x : ref) w :
  (x < length (heap w))%nat →
  (x ≠ r → heap (snd (enter s fuel r w)) !! x = heap w !! x)
  ∧ heap (snd (reset_game fuel r w)) !! x = heap w !! x.
Proof.
  intros Hlt. split; [intros Hx; by apply scene_leaves_others|].
  destruct fuel as [|fuel]; [done|].
  cbn [reset_game]. do 3 (erewrite bind_val by reflexivity).
  match goal with
  | |- context [main_game_loop ?f ?r1 ?w1] =>
      pose proof (scene_leaves_others PathChoice f r1 x w1) as H
  end.
  cbn [enter] in H. rewrite H.
  - cbn. by rewrite lookup_app_l.
  - cbn. lia.
  - cbn. rewrite length_app. cbn. lia.
Qed.

Lemma scenes_write_their_own_object_witness :
  heap (snd (enter Trivia 3 1
               (mkWorld [mkGameState 15 true; GameState_init] ["a"]
                  (λ _, 0%N) 0 []))) !! 0%nat
  = Some (mkGameState 15 true).
Proof.
  destruct (scenes_write_their_own_object Trivia 3 1 0
              (mkWorld [mkGameState 15 true; GameState_init] ["a"]
                 (λ _, 0%N) 0 [])) as [H _]; [cbn; lia|].
  apply H. discriminate.
Defined.
